(** * Filtered Space-Saving top-k estimator (package topk, src/topk.go)

    A shallow embedding of the streaming estimator: the bounded heap of
    monitored keys with its position index, the hashed error table, and
    the [New] / [Insert] / [Estimate] / [Keys] operations.

    Conventions
    - Go's [int] is taken at its 64-bit width; every addition and
      multiplication on it is followed by [int_wrap].
    - A run-time panic (index out of range, [make] with a negative size)
      is the result [None].
    - Slice positions are [nat]; the position index [m] is a [gmap] from
      keys to positions, the slice [elts] and the table [alphas] are lists.
    - [*string] keys are never written through, so an [element] holds its
      key by value. *)

From stdpp Require Import gmap strings list fin_maps sorting.
From Stdlib Require Import ZArith Lia ZifyNat.

(** ** Machine integers *)

Definition max_int : Z := 2 ^ 63 - 1.
Definition min_int : Z := - 2 ^ 63.

(** Two's-complement reduction of an integer into the range of [int]. *)
Definition int_wrap (z : Z) : Z := ((z + 2 ^ 63) mod 2 ^ 64 - 2 ^ 63)%Z.

Definition uint64 (z : Z) : Z := (z mod 2 ^ 64)%Z.
Definition uint32 (z : Z) : Z := (z mod 2 ^ 32)%Z.

Arguments int_wrap : simpl never.
Arguments uint64 : simpl never.
Arguments uint32 : simpl never.

(** ** SipHash-1-3 with the call shape of [sip13.Sum64Str]

    The hash comes from the imported package go-sip13.  Everything proved
    inside [Section Estimator] holds for an arbitrary hash function; this
    instance is used to evaluate the estimator on concrete keys. *)
Module sip13.

Definition rotl (x : Z) (b : Z) : Z :=
  uint64 (Z.lor (Z.shiftl x b) (Z.shiftr x (64 - b))).

Record lanes := Lanes { v0 : Z; v1 : Z; v2 : Z; v3 : Z }.

Definition round (v : lanes) : lanes :=
  let a0 := uint64 (v0 v + v1 v) in
  let a1 := Z.lxor (rotl (v1 v) 13) a0 in
  let a0 := rotl a0 32 in
  let a2 := uint64 (v2 v + v3 v) in
  let a3 := Z.lxor (rotl (v3 v) 16) a2 in
  let a0 := uint64 (a0 + a3) in
  let a3 := Z.lxor (rotl a3 21) a0 in
  let a2 := uint64 (a2 + a1) in
  let a1 := Z.lxor (rotl a1 17) a2 in
  let a2 := rotl a2 32 in
  Lanes a0 a1 a2 a3.

(** Little-endian value of a run of bytes. *)
Fixpoint le_bytes (p : list Z) : Z :=
  match p with
  | [] => 0
  | b :: p' => (b + 256 * le_bytes p')%Z
  end.

Definition absorb (v : lanes) (w : Z) : lanes :=
  let v := Lanes (v0 v) (v1 v) (v2 v) (Z.lxor (v3 v) w) in
  let v := round v in
  Lanes (Z.lxor (v0 v) w) (v1 v) (v2 v) (v3 v).

(** Full 8-byte blocks, then the tail block tagged with the length. *)
Fixpoint blocks (fuel : nat) (v : lanes) (p : list Z) (len : Z) : lanes :=
  match fuel with
  | O => v
  | S fuel' =>
      if decide (8 <= length p) then
        blocks fuel' (absorb v (le_bytes (take 8 p))) (drop 8 p) len
      else
        absorb v (Z.lor (Z.shiftl (len mod 256) 56) (le_bytes p))
  end.

Definition bytes_of (s : string) : list Z :=
  (fun a => Z.of_N (Ascii.N_of_ascii a)) <$> String.list_ascii_of_string s.

Definition Sum64Str (k0 k1 : Z) (s : string) : Z :=
  let p := bytes_of s in
  let v := Lanes (Z.lxor k0 0x736f6d6570736575) (Z.lxor k1 0x646f72616e646f6d)
                 (Z.lxor k0 0x6c7967656e657261) (Z.lxor k1 0x7465646279746573) in
  let v := blocks (S (length p)) v p (Z.of_nat (length p)) in
  let v := Lanes (v0 v) (v1 v) (Z.lxor (v2 v) 255) (v3 v) in
  let v := round (round (round v)) in
  Z.lxor (Z.lxor (v0 v) (v1 v)) (Z.lxor (v2 v) (v3 v)).

End sip13.

(** ** Data model *)

(** The exported [Element]: one estimate handed back to the caller. *)
Record Element := mkElement { EKey : string; ECount : Z; EError : Z }.

(** The heap's [element]. *)
Record element := mkelement { Key : string; Count : Z; Error : Z }.

Definition export (e : element) : Element :=
  {| EKey := Key e; ECount := Count e; EError := Error e |}.

(** [keys]: the monitored set, a slice ordered as a binary heap together
    with the position of every key. *)
Record keys := mkkeys { m : gmap string nat; elts : list element }.

Record Stream := mkStream { n : Z; k : keys; alphas : list Z }.

#[global] Instance element_eq_dec : EqDecision element.
Proof. solve_decision. Defined.
#[global] Instance Element_eq_dec : EqDecision Element.
Proof. solve_decision. Defined.

(** ** Ordering used by [Keys]: [elementsByCountDescending.Less] *)

Definition desc_less (a b : element) : bool :=
  (Count b <? Count a)%Z || ((Count a =? Count b)%Z && String.ltb (Key a) (Key b)).

(** ** The heap interface of [keys] *)

Definition elt_less (a b : element) : bool :=
  (Count a <? Count b)%Z || ((Count a =? Count b)%Z && (Error b <? Error a)%Z).

Definition Len (tk : keys) : nat := length (elts tk).

Definition Less (tk : keys) (i j : nat) : option bool :=
  ei ← elts tk !! i;
  ej ← elts tk !! j;
  Some (elt_less ei ej).

Definition Swap (tk : keys) (i j : nat) : option keys :=
  ei ← elts tk !! i;
  ej ← elts tk !! j;
  Some {| m := <[Key ei := j]> (<[Key ej := i]> (m tk));
          elts := <[j := ei]> (<[i := ej]> (elts tk)) |}.

Definition Push (tk : keys) (e : element) : keys :=
  {| m := <[Key e := length (elts tk)]> (m tk);
     elts := elts tk ++ [e] |}.

(** ** [container/heap]: [up], [down], [Fix], [Push]

    The loops are bounded by a fuel argument; [up] is started with more
    fuel than the depth of its position and [down] with more than the
    length of the slice, and exhausting it is reported as [None]. *)

Definition parent (j : nat) : nat := (j - 1) / 2.

Fixpoint up (fuel : nat) (h : keys) (j : nat) : option keys :=
  match fuel with
  | O => None
  | S fuel' =>
      let i := parent j in
      if decide (i = j) then Some h
      else
        b ← Less h j i;
        if negb b then Some h
        else h' ← Swap h i j; up fuel' h' i
  end.

(** The loop of [down]; the result carries the final position. *)
Fixpoint down_loop (fuel : nat) (h : keys) (i : nat) (n : nat) : option (keys * nat) :=
  match fuel with
  | O => None
  | S fuel' =>
      let j1 := 2 * i + 1 in
      if decide (n <= j1) then Some (h, i)
      else
        let j2 := j1 + 1 in
        r ← (if decide (j2 < n) then Less h j2 j1 else Some false);
        let j := if (r : bool) then j2 else j1 in
        b ← Less h j i;
        if negb b then Some (h, i)
        else h' ← Swap h i j; down_loop fuel' h' j n
  end.

Definition down (h : keys) (i0 : nat) (n : nat) : option (keys * bool) :=
  '(h', i) ← down_loop (S n) h i0 n;
  Some (h', bool_decide (i0 < i)).

Definition heap_Fix (h : keys) (i : nat) : option keys :=
  '(h', moved) ← down h i (Len h);
  if negb moved then up (S i) h' i else Some h'.

Definition heap_Push (h : keys) (x : element) : option keys :=
  let h' := Push h x in
  up (S (Len h')) h' (Len h' - 1).

(** ** [sort.Sort] over [elementsByCountDescending]

    The library sort is a comparison sort driven by [Less]; it is taken
    here as a straight insertion sort. *)

Fixpoint sort_insert (x : element) (l : list element) : list element :=
  match l with
  | [] => [x]
  | y :: l' => if desc_less y x then y :: sort_insert x l' else x :: l
  end.

Fixpoint sort_Sort (l : list element) : list element :=
  match l with
  | [] => []
  | x :: l' => sort_insert x (sort_Sort l')
  end.

(** ** The estimator *)

Definition reduce (x : Z) (n : Z) : Z :=
  uint32 (Z.shiftr (uint64 (uint32 x * uint64 n)) 32).

Arguments reduce : simpl never.

Definition New (n : Z) : option Stream :=
  if decide (n < 0)%Z then None
  else
    let len := int_wrap (n * 6) in
    if decide (len < 0)%Z then None
    else Some {| n := n;
                 k := {| m := ∅; elts := [] |};
                 alphas := replicate (Z.to_nat len) 0%Z |}.

Section Estimator.

(** The hash of a key under the two key words, [sip13.Sum64Str]. *)
Variable Sum64Str : Z → Z → string → Z.

(** [reduce(sip13.Sum64Str(0, 0, x), len(s.alphas))] as a position. *)
Definition slot (s : Stream) (x : string) : nat :=
  Z.to_nat (reduce (Sum64Str 0 0 x) (Z.of_nat (length (alphas s)))).

Definition Insert (s : Stream) (x : string) (count : Z)
  : option (Stream * Element) :=
  let xhash := slot s x in
  match m (k s) !! x with
  | Some idx =>
      (* the key is tracked *)
      e0 ← elts (k s) !! idx;
      let e := {| Key := Key e0; Count := int_wrap (Count e0 + count);
                  Error := Error e0 |} in
      h ← heap_Fix {| m := m (k s); elts := <[idx := e]> (elts (k s)) |} idx;
      Some ({| n := n s; k := h; alphas := alphas s |}, export e)
  | None =>
      if decide (Z.of_nat (length (elts (k s))) < n s)%Z then
        (* there is free space *)
        let e := {| Key := x; Count := count; Error := 0 |} in
        h ← heap_Push (k s) e;
        Some ({| n := n s; k := h; alphas := alphas s |}, export e)
      else
        a ← alphas s !! xhash;
        e0 ← elts (k s) !! 0;
        if decide (int_wrap (a + count) < Count e0)%Z then
          Some ({| n := n s; k := k s;
                   alphas := <[xhash := int_wrap (a + count)]> (alphas s) |},
                {| EKey := x; ECount := int_wrap (a + count); EError := a |})
        else
          (* replace the current minimum element *)
          let mkhash := slot s (Key e0) in
          _ ← alphas s !! mkhash;
          let alphas' := <[mkhash := Count e0]> (alphas s) in
          a' ← alphas' !! xhash;
          let e := {| Key := x; Count := int_wrap (a' + count); Error := a' |} in
          h ← heap_Fix {| m := <[x := 0]> (delete (Key e0) (m (k s)));
                          elts := <[0 := e]> (elts (k s)) |} 0;
          Some ({| n := n s; k := h; alphas := alphas' |}, export e)
  end.

(** [Keys] works on a fresh copy of the slice, so the estimator it is
    called on is handed back as it was. *)
Definition Keys (s : Stream) : Stream * list Element :=
  let copy := elts (k s) in
  (s, export <$> sort_Sort copy).

Definition Estimate (s : Stream) (x : string) : option Element :=
  let xhash := slot s x in
  match m (k s) !! x with
  | Some idx => e ← elts (k s) !! idx; Some (export e)
  | None =>
      count ← alphas s !! xhash;
      Some {| EKey := x; ECount := count; EError := count |}
  end.

(** A run of [Insert] calls, collecting what each call returned. *)
Fixpoint Inserts (s : Stream) (ops : list (string * Z))
  : option (Stream * list Element) :=
  match ops with
  | [] => Some (s, [])
  | (x, c) :: ops' =>
      '(s1, e) ← Insert s x c;
      '(s2, es) ← Inserts s1 ops';
      Some (s2, e :: es)
  end.

End Estimator.

Arguments slot : simpl never.
Arguments Insert : simpl never.

(** * Vocabulary of the properties *)

(** ** Heap order *)

(** [le_elt a b]: [b] does not come before [a] in the heap order. *)
Definition le_elt (a b : element) : Prop := elt_less b a = false.

(** [holds l p c]: the entries at positions [p] and [c], when both exist,
    are in heap order. *)
Definition holds (l : list element) (p c : nat) : Prop :=
  ∀ ep ec, l !! p = Some ep → l !! c = Some ec → le_elt ep ec.

Definition heap_ok (l : list element) : Prop :=
  ∀ c, 0 < c → holds l (parent c) c.

(** The slice is a heap except that the entry at [i] may be too large for
    its children. *)
Definition heap_but_down (l : list element) (i : nat) : Prop :=
  (∀ c, 0 < c → parent c ≠ i → holds l (parent c) c) ∧
  (∀ c, 0 < i → 0 < c → parent c = i → holds l (parent i) c).

(** The slice is a heap except that the entry at [i] may be too small for
    its parent. *)
Definition heap_but_up (l : list element) (i : nat) : Prop :=
  (∀ c, 0 < c → c ≠ i → holds l (parent c) c) ∧
  (∀ c, 0 < i → 0 < c → parent c = i → holds l (parent i) c).

(** ** Well-formed estimators *)

(** [m] maps a key to a position exactly when the slice holds an entry
    with that key there. *)
Definition wf_keys (tk : keys) : Prop :=
  ∀ key i, m tk !! key = Some i ↔ ∃ e, elts tk !! i = Some e ∧ Key e = key.

(** The estimator is well formed: the index agrees with the slice, the
    slice is within a capacity of at least one, and the error table is
    not empty. *)
Definition wf (s : Stream) : Prop :=
  wf_keys (k s) ∧ (1 ≤ n s)%Z ∧ (Z.of_nat (length (elts (k s))) ≤ n s)%Z ∧
  0 < length (alphas s).

(** The invariant of a run whose counts were positive and add up to [T]:
    the slice is a heap, no count or cell exceeds [T], every entry has
    [0 ≤ Error ≤ Count], the table is all zero until the slice fills up,
    and from then on no cell exceeds a monitored count. *)
Definition qinv (T : Z) (s : Stream) : Prop :=
  heap_ok (elts (k s)) ∧ (0 ≤ T ≤ max_int)%Z ∧
  (∀ e, e ∈ elts (k s) → (0 ≤ Error e ≤ Count e ∧ Count e ≤ T)%Z) ∧
  (∀ a, a ∈ alphas s → (0 ≤ a ≤ T)%Z) ∧
  ((Z.of_nat (length (elts (k s))) < n s)%Z → ∀ a, a ∈ alphas s → a = 0%Z) ∧
  (¬ (Z.of_nat (length (elts (k s))) < n s)%Z →
   ∀ a e, a ∈ alphas s → e ∈ elts (k s) → (a ≤ Count e)%Z).

(** ** The order of [Keys] *)

(** [Key a ≤ Key b] in the byte-wise order of strings. *)
Definition key_le (a b : string) : Prop := a = b ∨ String.ltb a b = true.

(** [a] may stand before [b] in the result of [Keys]: a larger count, or
    the same count and a key that is not larger. *)
Definition desc_le (a b : element) : Prop :=
  (Count b < Count a)%Z ∨ (Count a = Count b ∧ key_le (Key a) (Key b)).

(** The same order on exported elements. *)
Definition by_count_desc (a b : Element) : Prop :=
  (ECount b < ECount a)%Z ∨ (ECount a = ECount b ∧ key_le (EKey a) (EKey b)).

(** ** Runs and outcomes *)

(** The sum of the counts of a run. *)
Definition total (ops : list (string * Z)) : Z :=
  foldr (λ op t, (op.2 + t)%Z) 0%Z ops.

Definition positive (ops : list (string * Z)) : Prop :=
  Forall (λ op, (0 < op.2)%Z) ops.

Section Outcome.

Variable Sum64Str : Z → Z → string → Z.

(** What a call [Insert s x c] that returned [(s', r)] did, by the branch
    it took.  The slice of [s'] is given up to the reordering done by
    [heap.Fix] and [heap.Push]. *)
Inductive outcome (s : Stream) (x : string) (c : Z) (s' : Stream) (r : Element)
  : Prop :=
| out_tracked idx e0 e' :
    m (k s) !! x = Some idx → elts (k s) !! idx = Some e0 → Key e0 = x →
    e' = {| Key := Key e0; Count := int_wrap (Count e0 + c); Error := Error e0 |} →
    elts (k s') ≡ₚ <[idx := e']> (elts (k s)) →
    alphas s' = alphas s → r = export e' →
    (heap_ok (elts (k s)) → le_elt e0 e' → heap_ok (elts (k s'))) →
    outcome s x c s' r
| out_free e' :
    m (k s) !! x = None → (Z.of_nat (length (elts (k s))) < n s)%Z →
    e' = {| Key := x; Count := c; Error := 0 |} →
    elts (k s') ≡ₚ e' :: elts (k s) →
    alphas s' = alphas s → r = export e' →
    (heap_ok (elts (k s)) → heap_ok (elts (k s'))) →
    outcome s x c s' r
| out_filtered a e0 :
    m (k s) !! x = None → ¬ (Z.of_nat (length (elts (k s))) < n s)%Z →
    alphas s !! slot Sum64Str s x = Some a → elts (k s) !! 0 = Some e0 →
    (int_wrap (a + c) < Count e0)%Z →
    k s' = k s →
    alphas s' = <[slot Sum64Str s x := int_wrap (a + c)]> (alphas s) →
    r = {| EKey := x; ECount := int_wrap (a + c); EError := a |} →
    outcome s x c s' r
| out_evict a e0 a' e' :
    m (k s) !! x = None → ¬ (Z.of_nat (length (elts (k s))) < n s)%Z →
    alphas s !! slot Sum64Str s x = Some a → elts (k s) !! 0 = Some e0 →
    ¬ (int_wrap (a + c) < Count e0)%Z →
    alphas s' = <[slot Sum64Str s (Key e0) := Count e0]> (alphas s) →
    alphas s' !! slot Sum64Str s x = Some a' →
    e' = {| Key := x; Count := int_wrap (a' + c); Error := a' |} →
    elts (k s') ≡ₚ <[0 := e']> (elts (k s)) →
    r = export e' →
    (heap_ok (elts (k s)) → heap_ok (elts (k s'))) →
    outcome s x c s' r.

Definition count_of (s : Stream) (y : string) : option Z :=
  ECount <$> Estimate Sum64Str s y.

End Outcome.


(** The true cumulative count of [y] in a run: the sum of the counts
    inserted for it. *)
Definition occurrences (y : string) (ops : list (string * Z)) : Z :=
  foldr (λ op t, if decide (op.1 = y) then (op.2 + t)%Z else t) 0%Z ops.

(** The keys held by the slice. *)
Definition keyset (s : Stream) : gset string :=
  list_to_set (Key <$> elts (k s)).

(** The number of distinct keys of a run. *)
Definition distinct_keys (ops : list (string * Z)) : nat :=
  size (list_to_set (ops.*1) : gset string).

(** ** [keys.Pop] *)

Definition Pop (tk : keys) : option (keys * element) :=
  if decide (length (elts tk) = 0) then None
  else
    e ← elts tk !! (length (elts tk) - 1);
    Some ({| m := delete (Key e) (m tk);
             elts := take (length (elts tk) - 1) (elts tk) |}, e).

(** ** The msgp stream

    [msgp.Writer] and [msgp.Reader] are taken at the level of the objects
    they carry; the bytes of each object are the library's.  A writer
    appends objects to a sink that accepts [room] more of them and
    refuses the rest; a reader hands out the next object when it has the
    kind asked for, and fails otherwise or at the end of the stream.
    [TOther] stands for every object of another kind. *)

Inductive token :=
| TInt (z : Z)
| TString (s : string)
| TMapHeader (sz : Z)
| TArrayHeader (sz : Z)
| TOther.

Record Writer := mkWriter { out : list token; room : nat }.

Definition write (t : token) (w : Writer) : option Writer :=
  match room w with
  | O => None
  | S r => Some {| out := out w ++ [t]; room := r |}
  end.

Definition WriteInt (z : Z) : Writer → option Writer := write (TInt z).
Definition WriteString (s : string) : Writer → option Writer := write (TString s).
Definition WriteMapHeader (sz : Z) : Writer → option Writer := write (TMapHeader sz).
Definition WriteArrayHeader (sz : Z) : Writer → option Writer :=
  write (TArrayHeader sz).
Definition Flush (w : Writer) : option Writer := Some w.

Definition ReadInt (r : list token) : option (Z * list token) :=
  match r with TInt z :: r' => Some (z, r') | _ => None end.
Definition ReadString (r : list token) : option (string * list token) :=
  match r with TString s :: r' => Some (s, r') | _ => None end.
Definition ReadMapHeader (r : list token) : option (Z * list token) :=
  match r with TMapHeader sz :: r' => Some (sz, r') | _ => None end.
Definition ReadArrayHeader (r : list token) : option (Z * list token) :=
  match r with TArrayHeader sz :: r' => Some (sz, r') | _ => None end.

(** ** Encoding *)

(** [for _, a := range s.alphas { w.WriteInt(a) }] *)
Fixpoint write_ints (l : list Z) (w : Writer) : option Writer :=
  match l with
  | [] => Some w
  | a :: l' => w ← WriteInt a w; write_ints l' w
  end.

(** [for k, v := range tk.m { w.WriteString(k); w.WriteInt(v) }] *)
Fixpoint write_pairs (ps : list (string * nat)) (w : Writer) : option Writer :=
  match ps with
  | [] => Some w
  | (key, v) :: ps' =>
      w ← WriteString key w; w ← WriteInt (Z.of_nat v) w; write_pairs ps' w
  end.

(** [for _, e := range tk.elts { ... }] *)
Fixpoint write_elts (es : list element) (w : Writer) : option Writer :=
  match es with
  | [] => Some w
  | e :: es' =>
      w ← WriteString (Key e) w; w ← WriteInt (Count e) w;
      w ← WriteInt (Error e) w; write_elts es' w
  end.

Section Encoding.

(** The order in which [range] visits a map; Go leaves it open. *)
Variable range_order : gmap string nat → list (string * nat).

Definition keys_EncodeMsgp (tk : keys) (w : Writer) : option Writer :=
  w ← WriteMapHeader (uint32 (Z.of_nat (size (m tk)))) w;
  w ← write_pairs (range_order (m tk)) w;
  w ← WriteArrayHeader (uint32 (Z.of_nat (length (elts tk)))) w;
  write_elts (elts tk) w.

Definition EncodeMsgp (s : Stream) (w : Writer) : option Writer :=
  w ← WriteInt (n s) w;
  w ← WriteArrayHeader (uint32 (Z.of_nat (length (alphas s)))) w;
  w ← write_ints (alphas s) w;
  keys_EncodeMsgp (k s) w.

(** [Encode] writes through a fresh [msgp.Writer] on the sink and
    flushes it; the result is what the sink received. *)
Definition Encode (s : Stream) (sink_room : nat) : option (list token) :=
  w ← EncodeMsgp s {| out := []; room := sink_room |};
  w ← Flush w;
  Some (out w).

End Encoding.

(** ** Decoding

    The decoder fills the fields from what it reads and checks nothing
    else.  The positions it stores in the index are the integers read, of
    either sign; the record below holds the fields as read.  On an error
    the model reports the error only, not the partly filled receiver. *)

Record raw_keys := mkraw_keys { rm : gmap string Z; relts : list element }.
Record raw_Stream := mkraw_Stream { rn : Z; rk : raw_keys; ralphas : list Z }.

(** The fields of an estimator, as the decoder stores them. *)
Definition fields (s : Stream) : raw_Stream :=
  {| rn := n s;
     rk := {| rm := Z.of_nat <$> m (k s); relts := elts (k s) |};
     ralphas := alphas s |}.

Fixpoint read_ints (cnt : nat) (r : list token) : option (list Z * list token) :=
  match cnt with
  | O => Some ([], r)
  | S cnt' =>
      '(a, r) ← ReadInt r;
      '(l, r) ← read_ints cnt' r;
      Some (a :: l, r)
  end.

Fixpoint read_pairs (cnt : nat) (mp : gmap string Z) (r : list token)
  : option (gmap string Z * list token) :=
  match cnt with
  | O => Some (mp, r)
  | S cnt' =>
      '(key, r) ← ReadString r;
      '(val, r) ← ReadInt r;
      read_pairs cnt' (<[key := val]> mp) r
  end.

Fixpoint read_elts (cnt : nat) (r : list token)
  : option (list element * list token) :=
  match cnt with
  | O => Some ([], r)
  | S cnt' =>
      '(key, r) ← ReadString r;
      '(cn, r) ← ReadInt r;
      '(er, r) ← ReadInt r;
      '(es, r) ← read_elts cnt' r;
      Some ({| Key := key; Count := cn; Error := er |} :: es, r)
  end.

Definition keys_DecodeMsp (r : list token) : option (raw_keys * list token) :=
  '(sz, r) ← ReadMapHeader r;
  '(mp, r) ← read_pairs (Z.to_nat sz) ∅ r;
  '(sz, r) ← ReadArrayHeader r;
  '(es, r) ← read_elts (Z.to_nat sz) r;
  Some ({| rm := mp; relts := es |}, r).

Definition DecodeMsgp (r : list token) : option (raw_Stream * list token) :=
  '(nv, r) ← ReadInt r;
  '(sz, r) ← ReadArrayHeader r;
  '(al, r) ← read_ints (Z.to_nat sz) r;
  '(tk, r) ← keys_DecodeMsp r;
  Some ({| rn := nv; rk := tk; ralphas := al |}, r).

Definition Decode (r : list token) : option raw_Stream :=
  fst <$> DecodeMsgp r.

(** The objects [EncodeMsgp] is meant to write for an estimator, with the
    map visited in the order [ps]. *)
Definition ints_tokens (l : list Z) : list token := TInt <$> l.

Definition pairs_tokens (ps : list (string * nat)) : list token :=
  ps ≫= λ '(key, v), [TString key; TInt (Z.of_nat v)].

Definition elts_tokens (es : list element) : list token :=
  es ≫= λ e, [TString (Key e); TInt (Count e); TInt (Error e)].

Definition layout (s : Stream) (ps : list (string * nat)) : list token :=
  [TInt (n s); TArrayHeader (uint32 (Z.of_nat (length (alphas s))))] ++
  ints_tokens (alphas s) ++
  [TMapHeader (uint32 (Z.of_nat (size (m (k s)))))] ++
  pairs_tokens ps ++
  [TArrayHeader (uint32 (Z.of_nat (length (elts (k s)))))] ++
  elts_tokens (elts (k s)).

(** Writing a run of objects at once: all of them, or a refusal. *)
Definition emit (toks : list token) (w : Writer) : option Writer :=
  if decide (length toks ≤ room w)
  then Some {| out := out w ++ toks; room := room w - length toks |}
  else None.

(** Readers in sequence, and a reader that consumes nothing. *)
Definition bindp {A B} (f : list token → option (A * list token))
    (g : A → list token → option (B * list token))
  : list token → option (B * list token) :=
  λ r, f r ≫= λ '(a, r'), g a r'.

Definition retp {A} (a : A) : list token → option (A * list token) :=
  λ r, Some (a, r).

(** A reader is framed when its result depends only on the objects it
    consumed. *)
Definition framed {A} (f : list token → option (A * list token)) : Prop :=
  ∀ r a r', f r = Some (a, r') →
    ∃ used, r = used ++ r' ∧ ∀ tail, f (used ++ tail) = Some (a, tail).

(** The number of objects in the encoding of an estimator. *)
Definition encoded_size (s : Stream) : nat :=
  4 + length (alphas s) + 2 * size (m (k s)) + 3 * length (elts (k s)).

(** ** Two concrete estimators *)

(** [New(1)], and the estimator after [Insert("a", 5)] on it.  With six
    cells, ["a"] and ["d"] hash to cell 4 and ["b"] to cell 0. *)
Definition empty1 : Stream :=
  {| n := 1; k := {| m := ∅; elts := [] |}; alphas := replicate 6 0%Z |}.

Definition tracking_a : Stream :=
  {| n := 1;
     k := {| m := <["a" := 0]> ∅;
             elts := [ {| Key := "a"; Count := 5; Error := 0 |} ] |};
     alphas := replicate 6 0%Z |}.

Definition counting_a : Stream :=
  {| n := 1;
     k := {| m := <["a" := 0]> ∅;
             elts := [ {| Key := "a"; Count := 7; Error := 0 |} ] |};
     alphas := replicate 6 0%Z |}.

(** [New(2)], and the estimator it becomes by [Insert("a",5)],
    [Insert("b",3)] and [Insert("c",10)]: ["b"] was evicted with count 3,
    kept in cell 0 of the table. *)
Definition empty2 : Stream :=
  {| n := 2; k := {| m := ∅; elts := [] |}; alphas := replicate 12 0%Z |}.

Definition tracking_ac : Stream :=
  {| n := 2;
     k := {| m := <["a" := 0]> (<["c" := 1]> ∅);
             elts := [ {| Key := "a"; Count := 5; Error := 0 |};
                       {| Key := "c"; Count := 10; Error := 0 |} ] |};
     alphas := <[0 := 3%Z]> (replicate 12 0%Z) |}.

(** [New(1)] after [Insert("a",5)] and a filtered [Insert("d",1)]: the
    cell shared by ["a"] and ["d"] holds 1. *)
Definition tracking_a_filtered_d : Stream :=
  {| n := 1;
     k := {| m := <["a" := 0]> ∅;
             elts := [ {| Key := "a"; Count := 5; Error := 0 |} ] |};
     alphas := <[4 := 1%Z]> (replicate 6 0%Z) |}.

(** * Machine arithmetic *)

Ltac dlia := zify; Z.to_euclidean_division_equations; lia.

Lemma int_wrap_id z : (min_int ≤ z ≤ max_int)%Z → int_wrap z = z.
Proof. unfold min_int, max_int, int_wrap. intros. dlia. Qed.

Lemma int_wrap_range z : (min_int ≤ int_wrap z ≤ max_int)%Z.
Proof. unfold min_int, max_int, int_wrap. dlia. Qed.

Lemma reduce_nonneg x t : (0 ≤ reduce x t)%Z.
Proof. unfold reduce, uint32. dlia. Qed.

Lemma reduce_lt x t : (0 < t)%Z → (reduce x t < t)%Z.
Proof.
  intros Ht. unfold reduce, uint32, uint64.
  rewrite Z.shiftr_div_pow2 by lia.
  destruct (decide (t < 2 ^ 32)%Z) as [Hsmall|Hbig].
  - assert (0 ≤ x mod 2 ^ 32 < 2 ^ 32)%Z as Hx by dlia.
    rewrite (Z.mod_small t) by lia.
    rewrite (Z.mod_small (_ * _)) by nia.
    assert ((x mod 2 ^ 32 * t) / 2 ^ 32 < t)%Z.
    { apply Z.div_lt_upper_bound; nia. }
    assert (0 ≤ (x mod 2 ^ 32 * t) / 2 ^ 32)%Z by (apply Z.div_pos; nia).
    rewrite Z.mod_small; lia.
  - assert (∀ y, y mod 2 ^ 32 < 2 ^ 32)%Z as Hm by (intros; dlia).
    specialize (Hm (((x mod 2 ^ 32 * (t mod 2 ^ 64)) mod 2 ^ 64) / 2 ^ 32)%Z).
    lia.
Qed.

Lemma reduce_exact x t :
  (0 ≤ t ≤ 2 ^ 32)%Z → reduce x t = (((x mod 2 ^ 32) * t) / 2 ^ 32)%Z.
Proof.
  intros Ht. unfold reduce, uint32, uint64.
  rewrite Z.shiftr_div_pow2 by lia.
  assert (0 ≤ x mod 2 ^ 32 < 2 ^ 32)%Z as Hx by dlia.
  rewrite (Z.mod_small t) by lia.
  rewrite (Z.mod_small (_ * _)) by nia.
  apply Z.mod_small. split; [apply Z.div_pos; nia|].
  apply Z.div_lt_upper_bound; nia.
Qed.

(** * The heap order *)

Lemma le_elt_iff a b :
  le_elt a b ↔ (Count a < Count b ∨ (Count a = Count b ∧ Error b ≤ Error a))%Z.
Proof.
  unfold le_elt, elt_less.
  destruct (Z.ltb_spec (Count b) (Count a)), (Z.eqb_spec (Count b) (Count a)),
    (Z.ltb_spec (Error a) (Error b)); simpl; split; intros; try done; lia.
Qed.

Lemma elt_less_le a b : elt_less a b = true → le_elt a b.
Proof.
  intros Hab. apply le_elt_iff. unfold elt_less in Hab.
  destruct (Z.ltb_spec (Count a) (Count b)), (Z.eqb_spec (Count a) (Count b)),
    (Z.ltb_spec (Error b) (Error a)); simpl in *; try done; lia.
Qed.

Lemma le_elt_trans a b c : le_elt a b → le_elt b c → le_elt a c.
Proof. rewrite !le_elt_iff. lia. Qed.

Lemma le_elt_Count a b : le_elt a b → (Count a ≤ Count b)%Z.
Proof. rewrite le_elt_iff. lia. Qed.

Lemma le_elt_grow a b :
  Key b = Key a → Error b = Error a → (Count a ≤ Count b)%Z → le_elt a b.
Proof. rewrite le_elt_iff. lia. Qed.

Lemma parent_lt j : 0 < j → parent j < j.
Proof. unfold parent. intros. dlia. Qed.

Lemma parent_child c i : 0 < c → parent c = i ↔ c = 2 * i + 1 ∨ c = 2 * i + 2.
Proof. unfold parent. intros. dlia. Qed.

Lemma parent_fix j : parent j = j → j = 0.
Proof. unfold parent. intros. dlia. Qed.

Lemma heap_ok_but_down l i : heap_ok l → heap_but_down l i.
Proof.
  intros H. split; [intros; by apply H|].
  intros c Hi Hc Hpc ep ec Hp Hcc.
  destruct (l !! i) as [ei|] eqn:Hei.
  - eapply le_elt_trans; [eapply (H i); eauto|].
    eapply (H c); eauto. by rewrite Hpc.
  - apply lookup_ge_None in Hei. apply lookup_lt_Some in Hcc.
    pose proof (parent_lt c Hc). lia.
Qed.

Lemma heap_ok_but_up l i : heap_ok l → heap_but_up l i.
Proof.
  intros H. destruct (heap_ok_but_down l i H) as [_ H2].
  split; [intros; by apply H|done].
Qed.

Lemma swap_lookup (l : list element) i j ei ej p :
  l !! i = Some ei → l !! j = Some ej →
  <[j := ei]> (<[i := ej]> l) !! p =
    if decide (p = j) then Some ei
    else if decide (p = i) then Some ej else l !! p.
Proof.
  intros Hi Hj. apply lookup_lt_Some in Hi as Hil. apply lookup_lt_Some in Hj as Hjl.
  destruct (decide (p = j)) as [->|Hpj].
  { rewrite list_lookup_insert_eq; [done|by rewrite length_insert]. }
  rewrite list_lookup_insert_ne by done.
  destruct (decide (p = i)) as [->|Hpi].
  { by rewrite list_lookup_insert_eq. }
  by rewrite list_lookup_insert_ne.
Qed.

(** ** One exchange of [up] and of [down] on the slice *)

Ltac swap_cases H1 H2 :=
  repeat match goal with
  | H : <[_ := _]> (<[_ := _]> _) !! _ = Some _ |- _ =>
      rewrite (swap_lookup _ _ _ _ _ _ H1 H2) in H
  end;
  repeat case_decide; simplify_eq.

Lemma up_step_heap l j ei ej :
  0 < j → l !! parent j = Some ei → l !! j = Some ej →
  elt_less ej ei = true →
  heap_but_up l j →
  heap_but_up (<[j := ei]> (<[parent j := ej]> l)) (parent j).
Proof.
  intros Hj Hi Hjj Hless [H1 H2]. pose proof (parent_lt j Hj) as Hlt.
  apply elt_less_le in Hless.
  split.
  - intros c Hc Hne ep ec Hp Hcc. pose proof (parent_lt c Hc).
    swap_cases Hi Hjj; try lia; try done.
    + (* a child of [j] *)
      eapply H2; by eauto.
    + (* the sibling of [j] *)
      eapply le_elt_trans; [exact Hless|]. eapply (H1 c); eauto; congruence.
    + eapply (H1 c); eauto.
  - intros c Hpi Hc Hpc ep ec Hp Hcc.
    pose proof (parent_lt (parent j) Hpi) as Hlt2.
    swap_cases Hi Hjj; try lia.
    + eapply (H1 (parent j)); eauto; lia.
    + eapply le_elt_trans; [eapply (H1 (parent j)); eauto; lia|].
      eapply (H1 c); eauto; congruence.
Qed.

Lemma down_step_heap l i j ei ej :
  parent j = i → 0 < j →
  l !! i = Some ei → l !! j = Some ej →
  elt_less ej ei = true →
  (∀ c ec, 0 < c → parent c = i → l !! c = Some ec → le_elt ej ec) →
  heap_but_down l i →
  heap_but_down (<[j := ei]> (<[i := ej]> l)) j.
Proof.
  intros Hpj Hj Hi Hjj Hless Hmin [H1 H2]. pose proof (parent_lt j Hj) as Hlt.
  apply elt_less_le in Hless.
  split.
  - intros c Hc Hne ep ec Hp Hcc. pose proof (parent_lt c Hc).
    swap_cases Hi Hjj; try lia; try done.
    + (* [c] is the position [parent j] itself *)
      eapply (H2 j); eauto; lia.
    + (* the sibling of [j] *)
      eapply Hmin; eauto.
    + eapply (H1 c); eauto.
  - intros c _ Hc Hpc ep ec Hp Hcc. pose proof (parent_lt c Hc).
    swap_cases Hi Hjj; try lia.
    eapply (H1 c); eauto; lia.
Qed.

Lemma down_stop_heap l i :
  (∀ c ei ec, 0 < c → parent c = i → l !! i = Some ei → l !! c = Some ec →
              le_elt ei ec) →
  heap_but_down l i → heap_ok l.
Proof.
  intros Hch [H1 _] c Hc ep ec Hp Hcc.
  destruct (decide (parent c = i)) as [Heq|Hne].
  - eapply Hch; eauto. by rewrite <-Heq.
  - eapply (H1 c); eauto.
Qed.

(** ** The position index *)

Lemma wf_keys_inj tk i j ei ej :
  wf_keys tk → elts tk !! i = Some ei → elts tk !! j = Some ej →
  Key ei = Key ej → i = j.
Proof.
  intros Hwf Hi Hj Hk.
  assert (m tk !! Key ei = Some i) as H1 by (apply Hwf; eauto).
  assert (m tk !! Key ei = Some j) as H2 by (apply Hwf; eauto).
  congruence.
Qed.

Ltac wf_inj :=
  solve
    [ done
    | eauto
    | f_equal; eapply wf_keys_inj; eauto; done
    | f_equal; symmetry; eapply wf_keys_inj; eauto; done
    | exfalso;
      match goal with
      | H : ?a ≠ ?b |- _ =>
          apply H;
          solve [ eapply wf_keys_inj; eauto; done
                | symmetry; eapply wf_keys_inj; eauto; done ]
      end ].

Lemma Swap_Some h i j ei ej :
  elts h !! i = Some ei → elts h !! j = Some ej →
  Swap h i j = Some {| m := <[Key ei := j]> (<[Key ej := i]> (m h));
                       elts := <[j := ei]> (<[i := ej]> (elts h)) |}.
Proof. intros Hi Hj. unfold Swap. by rewrite Hi, Hj. Qed.

Lemma Swap_wf h i j ei ej :
  wf_keys h → elts h !! i = Some ei → elts h !! j = Some ej →
  wf_keys {| m := <[Key ei := j]> (<[Key ej := i]> (m h));
             elts := <[j := ei]> (<[i := ej]> (elts h)) |}.
Proof.
  intros Hwf Hi Hj key p. simpl.
  rewrite (swap_lookup _ _ _ _ _ _ Hi Hj).
  destruct (decide (key = Key ei)) as [->|Hki].
  { rewrite lookup_insert_eq. split.
    - intros [= <-]. rewrite decide_True by done. eauto.
    - intros (e & He & Hk). repeat case_decide; simplify_eq; wf_inj. }
  rewrite lookup_insert_ne by done.
  destruct (decide (key = Key ej)) as [->|Hkj].
  { rewrite lookup_insert_eq. split.
    - intros [= <-]. repeat case_decide; simplify_eq; eauto.
    - intros (e & He & Hk). repeat case_decide; simplify_eq; wf_inj. }
  rewrite lookup_insert_ne by done.
  rewrite (Hwf key p).
  split; intros (e & He & Hk); repeat case_decide; simplify_eq; wf_inj.
Qed.

(** ** [up], [down], [heap.Fix] and [heap.Push] *)

Lemma up_S fuel h j :
  up (S fuel) h j =
    if decide (parent j = j) then Some h
    else b ← Less h j (parent j);
         if negb b then Some h else h' ← Swap h (parent j) j; up fuel h' (parent j).
Proof. reflexivity. Qed.

Lemma down_loop_S fuel h i n :
  down_loop (S fuel) h i n =
    if decide (n ≤ 2 * i + 1) then Some (h, i)
    else (if decide (2 * i + 1 + 1 < n) then Less h (2 * i + 1 + 1) (2 * i + 1)
          else Some false) ≫= λ r : bool,
         b ← Less h (if r then 2 * i + 1 + 1 else 2 * i + 1) i;
         if negb b then Some (h, i)
         else h' ← Swap h i (if r then 2 * i + 1 + 1 else 2 * i + 1);
              down_loop fuel h' (if r then 2 * i + 1 + 1 else 2 * i + 1) n.
Proof. reflexivity. Qed.

Lemma up_spec fuel : ∀ h j,
  j < fuel → j < length (elts h) →
  ∃ h', up fuel h j = Some h' ∧ elts h' ≡ₚ elts h ∧
        (wf_keys h → wf_keys h') ∧
        (heap_but_up (elts h) j → heap_ok (elts h')).
Proof.
  induction fuel as [|fuel IH]; intros h j Hf Hj; [lia|]. rewrite up_S.
  destruct (decide (parent j = j)) as [Hp|Hp].
  { exists h. split_and!; try done. intros [H1 _] c Hc. apply H1; [done|].
    apply parent_fix in Hp. lia. }
  assert (0 < j) as Hj0 by (destruct j; [done|lia]).
  pose proof (parent_lt j Hj0) as Hlt.
  destruct (lookup_lt_is_Some_2 (elts h) j Hj) as [ej Hej].
  destruct (lookup_lt_is_Some_2 (elts h) (parent j)) as [ei Hei]; [lia|].
  unfold Less. rewrite Hej, Hei. simpl.
  destruct (elt_less ej ei) eqn:Hless; simpl.
  - rewrite (Swap_Some _ _ _ _ _ Hei Hej). simpl.
    edestruct (IH {| m := <[Key ei := j]> (<[Key ej := parent j]> (m h));
                     elts := <[j := ei]> (<[parent j := ej]> (elts h)) |}
                  (parent j)) as (h' & Hup & Hperm & Hwf & Hheap).
    { lia. } { simpl. rewrite !length_insert. lia. }
    exists h'. split_and!; [exact Hup | | | ].
    + rewrite Hperm. simpl. by apply Permutation_insert_swap.
    + intros Hw. apply Hwf. by apply Swap_wf.
    + intros Hb. apply Hheap. simpl. by apply up_step_heap.
  - exists h. split_and!; try done. intros [H1 _] c Hc.
    destruct (decide (c = j)) as [->|Hne]; [|by apply H1].
    intros ep ec ? ?. simplify_eq. exact Hless.
Qed.

(** The child [down] compares with the entry at [i]: the smaller of the
    two, or the only one. *)
Lemma down_pick h i :
  2 * i + 1 < length (elts h) →
  ∃ (r : bool) ej,
    (if decide (2 * i + 1 + 1 < length (elts h))
     then Less h (2 * i + 1 + 1) (2 * i + 1) else Some false) = Some r ∧
    elts h !! (if r then 2 * i + 1 + 1 else 2 * i + 1) = Some ej ∧
    (∀ c ec, 0 < c → parent c = i → elts h !! c = Some ec → le_elt ej ec).
Proof.
  intros H1.
  destruct (lookup_lt_is_Some_2 (elts h) (2 * i + 1) H1) as [e1 He1].
  case_decide as H2.
  - destruct (lookup_lt_is_Some_2 (elts h) (2 * i + 1 + 1) H2) as [e2 He2].
    unfold Less. rewrite He2, He1. simpl.
    destruct (elt_less e2 e1) eqn:Hless.
    + exists true, e2. split_and!; [done..|].
      intros c ec Hc Hpc Hcc. apply parent_child in Hpc as [->| ->]; [| |done].
      * simplify_eq. by apply elt_less_le.
      * replace (2 * i + 2) with (2 * i + 1 + 1) in Hcc by lia. simplify_eq.
        apply le_elt_iff. lia.
    + exists false, e1. split_and!; [done..|].
      intros c ec Hc Hpc Hcc. apply parent_child in Hpc as [->| ->]; [| |done].
      * simplify_eq. apply le_elt_iff. lia.
      * replace (2 * i + 2) with (2 * i + 1 + 1) in Hcc by lia. simplify_eq.
        exact Hless.
  - exists false, e1. split_and!; [done..|].
    intros c ec Hc Hpc Hcc. apply lookup_lt_Some in Hcc as Hlen.
    apply parent_child in Hpc as [->| ->]; [|lia|done].
    simplify_eq. apply le_elt_iff. lia.
Qed.

Lemma down_loop_spec fuel : ∀ h i,
  i < length (elts h) → length (elts h) - i < fuel →
  ∃ h' i', down_loop fuel h i (length (elts h)) = Some (h', i') ∧
        elts h' ≡ₚ elts h ∧ (wf_keys h → wf_keys h') ∧
        (heap_but_down (elts h) i → heap_ok (elts h')).
Proof.
  induction fuel as [|fuel IH]; intros h i Hi Hf; [lia|]. rewrite down_loop_S.
  case_decide as Hj1.
  { exists h, i. split_and!; try done. intros Hb.
    eapply down_stop_heap; [|done]. intros c ei ec Hc Hpc _ Hcc.
    apply lookup_lt_Some in Hcc. apply parent_child in Hpc; [|done]. lia. }
  destruct (down_pick h i) as (r & ej & -> & Hej & Hmin); [lia|].
  cbn [mbind option_bind].
  set (j := if r then 2 * i + 1 + 1 else 2 * i + 1) in *.
  assert (parent j = i ∧ 0 < j) as [Hpj Hj0].
  { subst j. destruct r; (split; [apply parent_child|]; lia). }
  destruct (lookup_lt_is_Some_2 (elts h) i Hi) as [ei Hei].
  unfold Less. rewrite Hej, Hei. simpl.
  destruct (elt_less ej ei) eqn:Hless; simpl.
  - rewrite (Swap_Some _ _ _ _ _ Hei Hej). simpl.
    pose proof (parent_lt j Hj0) as Hlt. apply lookup_lt_Some in Hej as Hjl.
    edestruct (IH {| m := <[Key ei := j]> (<[Key ej := i]> (m h));
                     elts := <[j := ei]> (<[i := ej]> (elts h)) |} j)
      as (h' & i' & Hdown & Hperm & Hwf & Hheap).
    { simpl. rewrite !length_insert. lia. }
    { simpl. rewrite !length_insert. lia. }
    simpl in Hdown. rewrite !length_insert in Hdown.
    exists h', i'. split_and!; [exact Hdown | | | ].
    + rewrite Hperm. simpl. by apply Permutation_insert_swap.
    + intros Hw. apply Hwf. by apply Swap_wf.
    + intros Hb. apply Hheap. simpl. by eapply down_step_heap.
  - exists h, i. split_and!; try done. intros Hb.
    eapply down_stop_heap; [|done]. intros c ei' ec Hc Hpc Hi' Hcc.
    simplify_eq. eapply le_elt_trans; [exact Hless|]. by eapply Hmin.
Qed.

Lemma heap_Fix_spec h i :
  i < length (elts h) →
  ∃ h', heap_Fix h i = Some h' ∧ elts h' ≡ₚ elts h ∧
        (wf_keys h → wf_keys h') ∧
        (heap_but_down (elts h) i → heap_ok (elts h')).
Proof.
  intros Hi. unfold heap_Fix, down, Len.
  destruct (down_loop_spec (S (length (elts h))) h i)
    as (h1 & i1 & -> & Hperm & Hwf & Hheap); [done|lia|].
  cbn [mbind option_bind].
  case_bool_decide; cbn [negb].
  { exists h1. by split_and!. }
  destruct (up_spec (S i) h1 i) as (h2 & -> & Hperm2 & Hwf2 & Hheap2).
  { lia. } { by rewrite Hperm. }
  exists h2. split_and!; [done|by rewrite Hperm2|by auto|].
  intros Hb. by apply Hheap2, heap_ok_but_up, Hheap.
Qed.

Lemma Push_wf h x :
  wf_keys h → m h !! Key x = None → wf_keys (Push h x).
Proof.
  intros Hwf Hfresh key p. unfold Push. simpl.
  destruct (decide (key = Key x)) as [->|Hne].
  - rewrite lookup_insert_eq. split.
    + intros [= <-]. exists x. by rewrite list_lookup_middle.
    + intros (e & He & Hk). f_equal.
      apply lookup_app_Some in He as [He|[Hge He]].
      * assert (m h !! Key x = Some p) by (apply Hwf; eauto). congruence.
      * apply list_lookup_singleton_Some in He as [? _]. lia.
  - rewrite lookup_insert_ne by done. rewrite (Hwf key p). split.
    + intros (e & He & Hk). exists e. split; [|done].
      by apply lookup_app_l_Some.
    + intros (e & He & Hk).
      apply lookup_app_Some in He as [He|[Hge He]]; [eauto|].
      apply list_lookup_singleton_Some in He as [_ ->]. done.
Qed.

Lemma heap_Push_spec h x :
  ∃ h', heap_Push h x = Some h' ∧ elts h' ≡ₚ x :: elts h ∧
        (wf_keys h → m h !! Key x = None → wf_keys h') ∧
        (heap_ok (elts h) → heap_ok (elts h')).
Proof.
  unfold heap_Push, Len.
  assert (length (elts (Push h x)) = S (length (elts h))) as Hlen.
  { simpl. rewrite length_app. simpl. lia. }
  destruct (up_spec (S (length (elts (Push h x)))) (Push h x)
              (length (elts (Push h x)) - 1))
    as (h' & -> & Hperm & Hwf & Hheap); [lia..|].
  exists h'. split_and!; [done| | |].
  - rewrite Hperm. simpl. by rewrite Permutation_app_comm.
  - intros Hw Hfresh. by apply Hwf, Push_wf.
  - intros Hok. apply Hheap. rewrite Hlen. simpl.
    replace (S (length (elts h)) - 1) with (length (elts h)) by lia.
    split.
    + intros c Hc Hne ep ec Hp Hcc. pose proof (parent_lt c Hc).
      apply lookup_lt_Some in Hcc as Hcl. rewrite length_app in Hcl. simpl in Hcl.
      rewrite lookup_app_l in Hp, Hcc by lia. by eapply (Hok c).
    + intros c _ Hc Hpc ep ec _ Hcc.
      apply lookup_lt_Some in Hcc as Hcl. rewrite length_app in Hcl. simpl in Hcl.
      apply parent_child in Hpc; [|done]. lia.
Qed.

Lemma heap_set_down l i e' :
  heap_ok l →
  (∀ ep, 0 < i → l !! parent i = Some ep → le_elt ep e') →
  heap_but_down (<[i := e']> l) i.
Proof.
  intros Hok Hpar. split.
  - intros c Hc Hne ep ec Hp Hcc. pose proof (parent_lt c Hc).
    rewrite list_lookup_insert_ne in Hp by done.
    destruct (decide (c = i)) as [->|Hci].
    + apply lookup_lt_Some in Hcc as Hl. rewrite length_insert in Hl.
      rewrite list_lookup_insert_eq in Hcc by done. simplify_eq. eauto.
    + rewrite list_lookup_insert_ne in Hcc by done. by eapply (Hok c).
  - intros c Hi Hc Hpc ep ec Hp Hcc.
    pose proof (parent_lt c Hc). pose proof (parent_lt i Hi).
    rewrite list_lookup_insert_ne in Hp, Hcc by lia.
    destruct (heap_ok_but_down l i Hok) as [_ H2]. by eapply (H2 c).
Qed.

Lemma heap_ok_root l e0 e :
  heap_ok l → l !! 0 = Some e0 → e ∈ l → le_elt e0 e.
Proof.
  intros Hok H0 Hin. apply list_elem_of_lookup in Hin as [i Hi].
  revert e Hi. induction (lt_wf i) as [i _ IH]. intros e Hi.
  destruct (decide (i = 0)) as [->|Hne].
  { simplify_eq. apply le_elt_iff. lia. }
  assert (0 < i) as Hpos by lia. pose proof (parent_lt i Hpos) as Hlt.
  apply lookup_lt_Some in Hi as Hil.
  destruct (lookup_lt_is_Some_2 l (parent i)) as [ep Hep]; [lia|].
  eapply le_elt_trans; [by eapply IH|]. by eapply (Hok i).
Qed.

(** ** Updates of the monitored set that keep the index consistent *)

Lemma wf_keys_update tk idx e0 e' :
  wf_keys tk → elts tk !! idx = Some e0 → Key e' = Key e0 →
  wf_keys {| m := m tk; elts := <[idx := e']> (elts tk) |}.
Proof.
  intros Hwf Hidx Hk key p. simpl. rewrite (Hwf key p).
  apply lookup_lt_Some in Hidx as Hlt.
  destruct (decide (p = idx)) as [->|Hne].
  - rewrite list_lookup_insert_eq by done. split.
    + intros (e & He & <-). simplify_eq. eauto.
    + intros (e & He & <-). simplify_eq. eauto.
  - by rewrite list_lookup_insert_ne.
Qed.

Lemma wf_keys_replace tk e0 e' :
  wf_keys tk → elts tk !! 0 = Some e0 → m tk !! Key e' = None →
  wf_keys {| m := <[Key e' := 0]> (delete (Key e0) (m tk));
             elts := <[0 := e']> (elts tk) |}.
Proof.
  intros Hwf H0 Hfresh key p. simpl.
  apply lookup_lt_Some in H0 as Hlt.
  assert (m tk !! Key e0 = Some 0) as Hm0 by (apply Hwf; eauto).
  destruct (decide (key = Key e')) as [->|Hne].
  - rewrite lookup_insert_eq. split.
    + intros [= <-]. rewrite list_lookup_insert_eq by done. eauto.
    + intros (e & He & Hk). f_equal.
      destruct (decide (p = 0)) as [->|Hp]; [done|].
      rewrite list_lookup_insert_ne in He by done.
      assert (m tk !! Key e' = Some p) by (apply Hwf; eauto). congruence.
  - rewrite lookup_insert_ne by done.
    destruct (decide (key = Key e0)) as [->|Hne0].
    + rewrite lookup_delete_eq. split; [done|].
      intros (e & He & Hk).
      destruct (decide (p = 0)) as [->|Hp].
      * rewrite list_lookup_insert_eq in He by done. by simplify_eq.
      * rewrite list_lookup_insert_ne in He by done.
        assert (m tk !! Key e0 = Some p) by (apply Hwf; eauto). congruence.
    + rewrite lookup_delete_ne by done. rewrite (Hwf key p).
      destruct (decide (p = 0)) as [->|Hp].
      * rewrite list_lookup_insert_eq by done. split.
        -- intros (e & He & Hk). simplify_eq.
        -- intros (e & He & Hk). simplify_eq.
      * by rewrite list_lookup_insert_ne.
Qed.

Lemma wf_keys_NoDup tk : wf_keys tk → NoDup (Key <$> elts tk).
Proof.
  intros Hwf. apply NoDup_alt. intros i j key Hi Hj.
  rewrite list_lookup_fmap in Hi, Hj.
  destruct (elts tk !! i) as [ei|] eqn:Hei; [|done].
  destruct (elts tk !! j) as [ej|] eqn:Hej; [|done].
  simpl in *. simplify_eq. eapply wf_keys_inj; eauto.
Qed.

Lemma wf_keys_size tk : wf_keys tk → size (m tk) = length (elts tk).
Proof.
  intros Hwf.
  assert (dom (m tk) = list_to_set (Key <$> elts tk)) as Hdom.
  { apply set_eq. intros key.
    rewrite elem_of_dom, elem_of_list_to_set, list_elem_of_fmap. split.
    - intros [i Hi]. apply Hwf in Hi as (e & He & Hk).
      exists e. split; [done|]. by eapply list_elem_of_lookup_2.
    - intros (e & -> & He). apply list_elem_of_lookup in He as [i Hi].
      exists i. apply Hwf. eauto. }
  rewrite <-size_dom, Hdom, size_list_to_set by by apply wf_keys_NoDup.
  by rewrite length_fmap.
Qed.

(** * One call of [Insert] *)

Section Step.

Variable Sum64Str : Z → Z → string → Z.

Lemma slot_lt s x : 0 < length (alphas s) → slot Sum64Str s x < length (alphas s).
Proof.
  intros Hlen. unfold slot.
  pose proof (reduce_nonneg (Sum64Str 0 0 x) (Z.of_nat (length (alphas s)))).
  pose proof (reduce_lt (Sum64Str 0 0 x) (Z.of_nat (length (alphas s)))).
  lia.
Qed.

Lemma slot_length s s' x :
  length (alphas s') = length (alphas s) → slot Sum64Str s' x = slot Sum64Str s x.
Proof. unfold slot. by intros ->. Qed.

(** The evicting branch on its own: it needs no more than the two reads
    it starts with. *)
Lemma Insert_evict s x c a e0 :
  m (k s) !! x = None → ¬ (Z.of_nat (length (elts (k s))) < n s)%Z →
  alphas s !! slot Sum64Str s x = Some a → elts (k s) !! 0 = Some e0 →
  ¬ (int_wrap (a + c) < Count e0)%Z →
  ∃ s' r a' e',
    Insert Sum64Str s x c = Some (s', r) ∧ n s' = n s ∧
    alphas s' = <[slot Sum64Str s (Key e0) := Count e0]> (alphas s) ∧
    alphas s' !! slot Sum64Str s x = Some a' ∧
    e' = {| Key := x; Count := int_wrap (a' + c); Error := a' |} ∧
    elts (k s') ≡ₚ <[0 := e']> (elts (k s)) ∧
    r = export e' ∧
    (wf_keys (k s) → wf_keys (k s')) ∧
    (heap_ok (elts (k s)) → heap_ok (elts (k s'))).
Proof.
  intros Hx Hfull Ha H0 Hge.
  apply lookup_lt_Some in Ha as Hal. apply lookup_lt_Some in H0 as H0l.
  assert (0 < length (alphas s)) as Hpos by lia.
  pose proof (slot_lt s (Key e0) Hpos) as Hmk.
  destruct (lookup_lt_is_Some_2 (alphas s) _ Hmk) as [amk Hamk].
  destruct (lookup_lt_is_Some_2
              (<[slot Sum64Str s (Key e0) := Count e0]> (alphas s))
              (slot Sum64Str s x)) as [a' Ha'].
  { by rewrite length_insert. }
  set (e' := {| Key := x; Count := int_wrap (a' + c); Error := a' |}).
  destruct (heap_Fix_spec
              {| m := <[x := 0]> (delete (Key e0) (m (k s)));
                 elts := <[0 := e']> (elts (k s)) |} 0)
    as (h' & HFix & Hperm & Hwf & Hheap).
  { simpl. by rewrite length_insert. }
  exists {| n := n s; k := h';
            alphas := <[slot Sum64Str s (Key e0) := Count e0]> (alphas s) |},
    (export e'), a', e'.
  split_and!; try done.
  - unfold Insert. rewrite Hx. rewrite decide_False by done.
    rewrite Ha, H0. cbn [mbind option_bind]. rewrite decide_False by done.
    rewrite Hamk. cbn [mbind option_bind]. rewrite Ha'. cbn [mbind option_bind].
    fold e'. by rewrite HFix.
  - intros Hw. apply Hwf. by apply (wf_keys_replace (k s) e0 e').
  - intros Hok. apply Hheap. simpl. apply heap_set_down; [done|lia].
Qed.

Lemma Insert_outcome s x c :
  wf s →
  ∃ s' r, Insert Sum64Str s x c = Some (s', r) ∧ wf s' ∧ n s' = n s ∧
          length (alphas s') = length (alphas s) ∧ outcome Sum64Str s x c s' r.
Proof.
  intros (Hwk & Hn & Hcap & Hal).
  destruct (m (k s) !! x) as [idx|] eqn:Hx.
  - (* tracked *)
    unfold Insert. rewrite Hx.
    apply Hwk in Hx as Hidx. destruct Hidx as (e0 & Hidx & Hk).
    rewrite Hidx. cbn [mbind option_bind].
    set (e' := {| Key := Key e0; Count := int_wrap (Count e0 + c);
                  Error := Error e0 |}).
    apply lookup_lt_Some in Hidx as Hlt.
    destruct (heap_Fix_spec {| m := m (k s); elts := <[idx := e']> (elts (k s)) |} idx)
      as (h' & -> & Hperm & Hwf & Hheap).
    { simpl. by rewrite length_insert. }
    cbn [mbind option_bind]. eexists _, _. split; [done|]. simpl in *.
    split_and!; try done.
    + split_and!; simpl; try done.
      * apply Hwf. by eapply wf_keys_update.
      * by rewrite Hperm, length_insert.
    + eapply out_tracked; eauto. simpl. intros Hok Hle. apply Hheap.
      apply heap_set_down; [done|]. intros ep Hpos Hep.
      eapply le_elt_trans; [|exact Hle]. by eapply (Hok idx).
  - destruct (decide (Z.of_nat (length (elts (k s))) < n s)%Z) as [Hfree|Hfull].
    + (* free space *)
      unfold Insert. rewrite Hx. rewrite decide_True by done.
      set (e' := {| Key := x; Count := c; Error := 0 |}).
      destruct (heap_Push_spec (k s) e') as (h' & -> & Hperm & Hwf & Hheap).
      cbn [mbind option_bind]. eexists _, _. split; [done|]. simpl.
      split_and!; try done.
      * split_and!; simpl; try done; [by apply Hwf|].
        rewrite Hperm. simpl. lia.
      * eapply out_free; eauto.
    + pose proof (slot_lt s x Hal) as Hsl.
      destruct (lookup_lt_is_Some_2 (alphas s) _ Hsl) as [a Ha].
      destruct (lookup_lt_is_Some_2 (elts (k s)) 0) as [e0 H0]; [lia|].
      destruct (decide (int_wrap (a + c) < Count e0)%Z) as [Hlt|Hge].
      * (* filtered *)
        unfold Insert. rewrite Hx. rewrite decide_False by done.
        rewrite Ha, H0. cbn [mbind option_bind]. rewrite decide_True by done.
        eexists _, _. split; [done|]. cbn [n k alphas].
        split_and!; try done.
        -- unfold wf. cbn [n k alphas]. rewrite length_insert. done.
        -- by rewrite length_insert.
        -- eapply out_filtered; eauto.
      * (* the minimum is replaced *)
        destruct (Insert_evict s x c a e0)
          as (s' & r & a' & e' & HI & Hns & Hal' & Ha' & He' & Hperm & Hr &
              Hwf & Hheap); try done.
        exists s', r. split; [done|].
        assert (length (alphas s') = length (alphas s)) as Hlen.
        { by rewrite Hal', length_insert. }
        split_and!; try done.
        -- split_and!; try done; [by auto|lia| |lia].
           rewrite Hns, Hperm, length_insert. lia.
        -- eapply out_evict; eauto.
Qed.

End Step.

(** * Counts and error cells along a run *)

Lemma elem_of_insert_inv {A} (l : list A) i v x :
  x ∈ <[i := v]> l → x = v ∨ x ∈ l.
Proof.
  intros Hin. apply list_elem_of_lookup in Hin as [p Hp].
  apply list_lookup_insert_Some in Hp as [(-> & -> & _)|[_ Hp]]; [by left|].
  right. by eapply list_elem_of_lookup_2.
Qed.

Lemma elem_of_insert_other {A} (l : list A) i p v x :
  l !! p = Some x → p ≠ i → x ∈ <[i := v]> l.
Proof.
  intros Hp Hne. apply list_elem_of_lookup. exists p.
  by rewrite list_lookup_insert_ne.
Qed.

Lemma int_wrap_sum T a c :
  (0 ≤ a ≤ T)%Z → (0 < c)%Z → (T + c ≤ max_int)%Z → int_wrap (a + c) = (a + c)%Z.
Proof. intros. apply int_wrap_id. unfold min_int, max_int in *. lia. Qed.

Ltac split_qinv := split; [|split; [|split; [|split; [|split]]]].

Section Run.

Variable Sum64Str : Z → Z → string → Z.

(** No cell of the error table decreases. *)
Lemma outcome_cells T s x c s' r :
  qinv T s → (0 < c)%Z → (T + c ≤ max_int)%Z →
  outcome Sum64Str s x c s' r →
  ∀ i a a', alphas s !! i = Some a → alphas s' !! i = Some a' → (a ≤ a')%Z.
Proof.
  intros (Hheap & HT & Hent & Hcell & Hzero & Hfull) Hc Hmax Hout i b b' Hb Hb'.
  destruct Hout as [idx e0 e' Hx Hidx Hk He' Hperm Hal Hr Hh
                   |e' Hx Hfree He' Hperm Hal Hr Hh
                   |a e0 Hx Hnf Ha H0 Hlt Hks Hal Hr
                   |a e0 a' e' Hx Hnf Ha H0 Hge Hal Ha' He' Hperm Hr Hh].
  - rewrite Hal in Hb'. simplify_eq. lia.
  - rewrite Hal in Hb'. simplify_eq. lia.
  - rewrite Hal in Hb'.
    apply list_lookup_insert_Some in Hb' as [(<- & <- & _)|[_ Hb']].
    + simplify_eq. rewrite (int_wrap_sum T); [lia| |done..].
      apply Hcell. by eapply list_elem_of_lookup_2.
    + simplify_eq. lia.
  - rewrite Hal in Hb'.
    apply list_lookup_insert_Some in Hb' as [(<- & <- & _)|[_ Hb']].
    + apply Hfull; [done| |]; by eapply list_elem_of_lookup_2.
    + simplify_eq. lia.
Qed.

Lemma outcome_qinv T s x c s' r :
  qinv T s → (0 < c)%Z → (T + c ≤ max_int)%Z → n s' = n s →
  outcome Sum64Str s x c s' r →
  qinv (T + c) s'.
Proof.
  intros (Hheap & HT & Hent & Hcell & Hzero & Hfull) Hc Hmax Hn Hout.
  destruct Hout as [idx e0 e' Hx Hidx Hk He' Hperm Hal Hr Hh
                   |e' Hx Hfree He' Hperm Hal Hr Hh
                   |a e0 Hx Hnf Ha H0 Hlt Hks Hal Hr
                   |a e0 a' e' Hx Hnf Ha H0 Hge Hal Ha' He' Hperm Hr Hh].
  - (* tracked *)
    assert (e0 ∈ elts (k s)) as Hin0 by by eapply list_elem_of_lookup_2.
    destruct (Hent e0 Hin0) as [? ?].
    assert (Count e' = Count e0 + c)%Z as HC.
    { subst e'. cbn [Count]. apply (int_wrap_sum T); [lia|done..]. }
    assert (Error e' = Error e0 ∧ Key e' = Key e0) as [HE HK] by by subst e'.
    assert (length (elts (k s')) = length (elts (k s))) as Hlen.
    { by rewrite Hperm, length_insert. }
    split_qinv.
    + apply Hh; [done|]. apply le_elt_grow; [done..|lia].
    + lia.
    + intros e. rewrite Hperm. intros [->|He]%elem_of_insert_inv.
      * lia.
      * specialize (Hent e He). lia.
    + intros b. rewrite Hal. intros Hb. specialize (Hcell b Hb). lia.
    + rewrite Hlen, Hn, Hal. done.
    + rewrite Hlen, Hn, Hal. intros Hnf b e Hb.
      rewrite Hperm. intros [->|He]%elem_of_insert_inv.
      * specialize (Hfull Hnf b e0 Hb Hin0). lia.
      * by apply Hfull.
  - (* free space *)
    assert (length (elts (k s')) = S (length (elts (k s)))) as Hlen.
    { by rewrite Hperm. }
    split_qinv.
    + by apply Hh.
    + lia.
    + intros e. rewrite Hperm. intros [->|He]%elem_of_cons.
      * subst e'. cbn [Count Error]. lia.
      * specialize (Hent e He). lia.
    + intros b. rewrite Hal. intros Hb. specialize (Hcell b Hb). lia.
    + rewrite Hal. intros _. by apply Hzero.
    + rewrite Hal. intros _ b e Hb. rewrite (Hzero Hfree b Hb).
      rewrite Hperm. intros [->|He]%elem_of_cons.
      * subst e'. cbn [Count]. lia.
      * specialize (Hent e He). lia.
  - (* filtered *)
    assert (0 ≤ a ≤ T)%Z as Hab by (apply Hcell; by eapply list_elem_of_lookup_2).
    rewrite (int_wrap_sum T) in Hlt, Hal by done.
    split_qinv.
    + by rewrite Hks.
    + lia.
    + intros e. rewrite Hks. intros He. specialize (Hent e He). lia.
    + intros b. rewrite Hal. intros [->|Hb]%elem_of_insert_inv; [lia|].
      specialize (Hcell b Hb). lia.
    + rewrite Hks, Hn. done.
    + rewrite Hks. intros _ b e Hb He. revert Hb. rewrite Hal.
      intros [->|Hb]%elem_of_insert_inv; [|by apply Hfull].
      pose proof (le_elt_Count _ _ (heap_ok_root _ _ _ Hheap H0 He)). lia.
  - (* the minimum is replaced *)
    assert (e0 ∈ elts (k s)) as Hin0 by by eapply list_elem_of_lookup_2.
    assert (a ∈ alphas s) as Hina by by eapply list_elem_of_lookup_2.
    destruct (Hent e0 Hin0) as [? ?].
    pose proof (Hcell a Hina) as Hab.
    rewrite (int_wrap_sum T) in Hge by done.
    assert (a' = Count e0 ∨ a' = a) as Ha'cases.
    { rewrite Hal in Ha'.
      apply list_lookup_insert_Some in Ha' as [(_ & <- & _)|[_ Ha']]; [by left|].
      right. congruence. }
    assert (0 ≤ a' ≤ T ∧ Count e0 ≤ a' + c)%Z as [Ha'b Hnew] by lia.
    assert (Count e' = a' + c)%Z as HC.
    { subst e'. cbn [Count]. by apply (int_wrap_sum T). }
    assert (Error e' = a') as HE by by subst e'.
    assert (length (elts (k s')) = length (elts (k s))) as Hlen.
    { by rewrite Hperm, length_insert. }
    split_qinv.
    + by apply Hh.
    + lia.
    + intros e. rewrite Hperm. intros [->|He]%elem_of_insert_inv.
      * lia.
      * specialize (Hent e He). lia.
    + intros b. rewrite Hal. intros [->|Hb]%elem_of_insert_inv; [lia|].
      specialize (Hcell b Hb). lia.
    + rewrite Hlen, Hn. done.
    + intros _ b e. rewrite Hal, Hperm.
      intros Hb [->|He]%elem_of_insert_inv.
      * apply elem_of_insert_inv in Hb as [->|Hb]; [lia|].
        specialize (Hfull Hnf b e0 Hb Hin0). lia.
      * pose proof (le_elt_Count _ _ (heap_ok_root _ _ _ Hheap H0 He)).
        apply elem_of_insert_inv in Hb as [->|Hb]; [lia|].
        by apply Hfull.
Qed.

(** ** The estimate of a key *)

Lemma count_of_tracked s e :
  wf_keys (k s) → e ∈ elts (k s) → count_of Sum64Str s (Key e) = Some (Count e).
Proof.
  intros Hwf [i Hi]%list_elem_of_lookup. unfold count_of, Estimate.
  assert (m (k s) !! Key e = Some i) as -> by (apply Hwf; eauto).
  by rewrite Hi.
Qed.

Lemma untracked_iff tk y :
  wf_keys tk → m tk !! y = None ↔ ∀ e, e ∈ elts tk → Key e ≠ y.
Proof.
  intros Hwf. split.
  - intros Hy e [i Hi]%list_elem_of_lookup Hk.
    assert (m tk !! y = Some i) by (apply Hwf; eauto). congruence.
  - intros Hno. destruct (m tk !! y) as [i|] eqn:Hy; [|done].
    apply Hwf in Hy as (e & He & Hk). exfalso.
    eapply Hno; [|done]. by eapply list_elem_of_lookup_2.
Qed.

Lemma count_of_untracked s y :
  wf_keys (k s) → (∀ e, e ∈ elts (k s) → Key e ≠ y) →
  count_of Sum64Str s y = alphas s !! slot Sum64Str s y.
Proof.
  intros Hwf Hno. apply untracked_iff in Hno; [|done].
  unfold count_of, Estimate. rewrite Hno.
  by destruct (alphas s !! slot Sum64Str s y).
Qed.

Lemma tracked_or_not tk y :
  wf_keys tk →
  (∃ e, e ∈ elts tk ∧ Key e = y) ∨ (∀ e, e ∈ elts tk → Key e ≠ y).
Proof.
  intros Hwf. destruct (m tk !! y) as [i|] eqn:Hy.
  - left. apply Hwf in Hy as (e & He & Hk). exists e.
    split; [by eapply list_elem_of_lookup_2|done].
  - right. by apply untracked_iff.
Qed.

Lemma wf_keys_elem_inj tk e1 e2 :
  wf_keys tk → e1 ∈ elts tk → e2 ∈ elts tk → Key e1 = Key e2 → e1 = e2.
Proof.
  intros Hwf [i Hi]%list_elem_of_lookup [j Hj]%list_elem_of_lookup Hk.
  assert (i = j) by (eapply wf_keys_inj; eauto). congruence.
Qed.

Lemma elem_of_insert_pos {A} (l : list A) i v y :
  y ∈ <[i := v]> l → y = v ∨ ∃ p, p ≠ i ∧ l !! p = Some y.
Proof.
  intros [p Hp]%list_elem_of_lookup.
  apply list_lookup_insert_Some in Hp as [(-> & -> & _)|[? Hp]]; [by left|].
  right. exists p. split; [done|done].
Qed.

(** What [Insert] returns for [x] is what [Estimate] answers for [x]
    right after the call. *)
Lemma outcome_returned s x c s' r :
  wf s → wf s' → length (alphas s') = length (alphas s) →
  outcome Sum64Str s x c s' r →
  count_of Sum64Str s' x = Some (ECount r).
Proof.
  intros (Hwk & _) (Hwk' & _) Hlen Hout.
  destruct Hout as [idx e0 e' Hx Hidx Hk He' Hperm Hal Hr Hh
                   |e' Hx Hfree He' Hperm Hal Hr Hh
                   |a e0 Hx Hnf Ha H0 Hlt Hks Hal Hr
                   |a e0 a' e' Hx Hnf Ha H0 Hge Hal Ha' He' Hperm Hr Hh].
  - assert (e' ∈ elts (k s')) as Hin.
    { rewrite Hperm. apply list_elem_of_insert. by eapply lookup_lt_Some. }
    assert (Key e' = x) as <- by (subst e'; done).
    rewrite (count_of_tracked s' e') by done. by subst r.
  - assert (e' ∈ elts (k s')) as Hin by (rewrite Hperm; left).
    assert (Key e' = x) as <- by (subst e'; done).
    rewrite (count_of_tracked s' e') by done. by subst r.
  - rewrite count_of_untracked; [|done|].
    + rewrite (slot_length _ s s') by done. rewrite Hal.
      rewrite list_lookup_insert_eq by by eapply lookup_lt_Some.
      by subst r.
    + rewrite Hks. by apply untracked_iff.
  - assert (e' ∈ elts (k s')) as Hin.
    { rewrite Hperm. apply list_elem_of_insert. by eapply lookup_lt_Some. }
    assert (Key e' = x) as <- by (subst e'; done).
    rewrite (count_of_tracked s' e') by done. by subst r.
Qed.

(** The estimate of every key is non-decreasing. *)
Lemma outcome_estimates T s x c s' r :
  wf s → wf s' → qinv T s → (0 < c)%Z → (T + c ≤ max_int)%Z →
  length (alphas s') = length (alphas s) →
  outcome Sum64Str s x c s' r →
  ∀ y v v', count_of Sum64Str s y = Some v → count_of Sum64Str s' y = Some v' → (v ≤ v')%Z.
Proof.
  intros Hwf Hwf' Hq Hc Hmax Hlen Hout y v v' Hv Hv'.
  pose proof (outcome_cells T s x c s' r Hq Hc Hmax Hout) as Hcells.
  destruct Hwf as (Hwk & _). destruct Hwf' as (Hwk' & _).
  destruct Hq as (Hheap & HT & Hent & Hcell & Hzero & Hfull).
  assert (slot Sum64Str s' y = slot Sum64Str s y) as Hslot by by apply slot_length.
  assert ((∀ e, e ∈ elts (k s) → Key e ≠ y) →
          (∀ e, e ∈ elts (k s') → Key e ≠ y) → (v ≤ v')%Z) as Hun.
  { intros Hno Hno'.
    rewrite count_of_untracked in Hv, Hv' by done. rewrite Hslot in Hv'.
    by eapply Hcells. }
  destruct Hout as [idx e0 e' Hx Hidx Hk He' Hperm Hal Hr Hh
                   |e' Hx Hfree He' Hperm Hal Hr Hh
                   |a e0 Hx Hnf Ha H0 Hlt Hks Hal Hr
                   |a e0 a' e' Hx Hnf Ha H0 Hge Hal Ha' He' Hperm Hr Hh].
  - (* tracked *)
    assert (e0 ∈ elts (k s)) as Hin0 by by eapply list_elem_of_lookup_2.
    assert (e' ∈ elts (k s')) as Hin'.
    { rewrite Hperm. apply list_elem_of_insert. by eapply lookup_lt_Some. }
    assert (Key e' = Key e0) as HK by by subst e'.
    assert (Count e' = Count e0 + c)%Z as HC.
    { subst e'. cbn [Count]. apply (int_wrap_sum T); [|done..].
      specialize (Hent e0 Hin0). lia. }
    destruct (tracked_or_not (k s) y Hwk) as [(e & He & Hky)|Hno].
    + rewrite <-Hky, (count_of_tracked s e) in Hv by done.
      destruct (decide (Key e = Key e0)) as [Heq|Hne].
      * assert (e = e0) as -> by by apply (wf_keys_elem_inj (k s)).
        rewrite <-Hky, <-HK, (count_of_tracked s' e') in Hv' by done.
        simplify_eq. lia.
      * apply list_elem_of_lookup in He as [p Hp].
        assert (e ∈ elts (k s')) as Hes'.
        { rewrite Hperm. eapply elem_of_insert_other; [done|].
          intros ->. simplify_eq. }
        rewrite <-Hky, (count_of_tracked s' e) in Hv' by done.
        simplify_eq. lia.
    + apply Hun; [done|]. intros e. rewrite Hperm.
      intros [->|He]%elem_of_insert_inv; [|by apply Hno].
      rewrite HK. by apply Hno.
  - (* free space *)
    assert (e' ∈ elts (k s')) as Hin' by (rewrite Hperm; left).
    assert (Key e' = x ∧ Count e' = c) as [HK HC] by by subst e'.
    destruct (tracked_or_not (k s) y Hwk) as [(e & He & Hky)|Hno].
    + rewrite <-Hky, (count_of_tracked s e) in Hv by done.
      assert (e ∈ elts (k s')) as Hes' by (rewrite Hperm; by right).
      rewrite <-Hky, (count_of_tracked s' e) in Hv' by done.
      simplify_eq. lia.
    + destruct (decide (y = x)) as [->|Hne].
      * rewrite <-HK, (count_of_tracked s' e') in Hv' by done.
        rewrite count_of_untracked in Hv by (done || by rewrite HK).
        apply list_elem_of_lookup_2 in Hv. rewrite (Hzero Hfree v Hv).
        simplify_eq. lia.
      * apply Hun; [done|]. intros e. rewrite Hperm.
        intros [->|He]%elem_of_cons; [congruence|by apply Hno].
  - (* filtered *)
    destruct (tracked_or_not (k s) y Hwk) as [(e & He & Hky)|Hno].
    + rewrite <-Hky, (count_of_tracked s e) in Hv by done.
      rewrite <-Hky, (count_of_tracked s' e) in Hv' by (done || by rewrite Hks).
      simplify_eq. lia.
    + apply Hun; [done|]. by rewrite Hks.
  - (* the minimum is replaced *)
    assert (e0 ∈ elts (k s)) as Hin0 by by eapply list_elem_of_lookup_2.
    assert (e' ∈ elts (k s')) as Hin'.
    { rewrite Hperm. apply list_elem_of_insert. by eapply lookup_lt_Some. }
    assert (Key e' = x) as HK by by subst e'.
    assert (∀ e, e ∈ elts (k s) → Key e ≠ x) as Hnox by by apply untracked_iff.
    destruct (tracked_or_not (k s) y Hwk) as [(e & He & Hky)|Hno].
    + rewrite <-Hky, (count_of_tracked s e) in Hv by done.
      destruct (decide (Key e = Key e0)) as [Heq|Hne].
      * assert (e = e0) as -> by by apply (wf_keys_elem_inj (k s)).
        rewrite count_of_untracked in Hv'; [|done|].
        -- rewrite Hslot, <-Hky, Hal in Hv'.
           rewrite list_lookup_insert_eq in Hv'.
           ++ simplify_eq. lia.
           ++ apply slot_lt. apply lookup_lt_Some in Ha. lia.
        -- intros e2. rewrite Hperm.
           intros [->|(p & Hp0 & Hp)]%elem_of_insert_pos.
           ++ rewrite HK, <-Hky. intros Hxx. by eapply (Hnox e0).
           ++ intros Hk2. apply Hp0.
              eapply (wf_keys_inj (k s) p 0 e2 e0); eauto. congruence.
      * apply list_elem_of_lookup in He as [p Hp].
        assert (e ∈ elts (k s')) as Hes'.
        { rewrite Hperm. eapply elem_of_insert_other; [done|].
          intros ->. simplify_eq. }
        rewrite <-Hky, (count_of_tracked s' e) in Hv' by done.
        simplify_eq. lia.
    + destruct (decide (y = x)) as [->|Hne].
      * rewrite <-HK, (count_of_tracked s' e') in Hv' by done.
        rewrite count_of_untracked in Hv by (done || by rewrite HK).
        simplify_eq.
        assert (a ≤ a')%Z by by eapply Hcells.
        assert (0 ≤ a' ≤ T)%Z.
        { rewrite Hal in Ha'. apply list_elem_of_lookup_2 in Ha'.
          apply elem_of_insert_inv in Ha' as [->|Ha']; [|by apply Hcell].
          specialize (Hent e0 Hin0). lia. }
        cbn [Count]. rewrite (int_wrap_sum T) by done. lia.
      * apply Hun; [done|]. intros e. rewrite Hperm.
        intros [->|He]%elem_of_insert_inv; [|by apply Hno].
        subst e'. cbn [Key]. congruence.
Qed.

Lemma count_of_total s y : wf s → ∃ v, count_of Sum64Str s y = Some v.
Proof.
  intros (Hwk & _ & _ & Hal).
  destruct (tracked_or_not (k s) y Hwk) as [(e & He & <-)|Hno].
  - exists (Count e). by apply count_of_tracked.
  - rewrite count_of_untracked by done.
    apply lookup_lt_is_Some_2. by apply slot_lt.
Qed.

(** ** Runs *)

Lemma total_nonneg ops : positive ops → (0 ≤ total ops)%Z.
Proof. induction 1; simpl; lia. Qed.

Lemma Inserts_cons s x c ops :
  Inserts Sum64Str s ((x, c) :: ops) =
    Insert Sum64Str s x c ≫= λ '(s1, e),
      Inserts Sum64Str s1 ops ≫= λ '(s2, es), Some (s2, e :: es).
Proof. reflexivity. Qed.

(** A run from a well-formed estimator never panics, and stays well
    formed, whatever the keys and counts. *)
Lemma Inserts_wf ops : ∀ s,
  wf s →
  ∃ s' outs, Inserts Sum64Str s ops = Some (s', outs) ∧ wf s' ∧
             n s' = n s ∧ length (alphas s') = length (alphas s) ∧
             length outs = length ops.
Proof.
  induction ops as [|[x c] ops IH]; intros s Hwf.
  { exists s, []. by split_and!. }
  destruct (Insert_outcome Sum64Str s x c Hwf)
    as (s1 & r & HI & Hwf1 & Hn1 & Hl1 & _).
  destruct (IH s1 Hwf1) as (s' & outs & HIs & Hwf' & Hn' & Hl' & Hlo).
  exists s', (r :: outs). rewrite Inserts_cons, HI. cbn [mbind option_bind].
  rewrite HIs. cbn [mbind option_bind].
  split_and!; [done|done|congruence|congruence|simpl; congruence].
Qed.

(** A run of positive counts that add up to no more than [max_int]. *)
Lemma Inserts_qinv ops : ∀ T s s' outs,
  wf s → qinv T s → positive ops → (T + total ops ≤ max_int)%Z →
  Inserts Sum64Str s ops = Some (s', outs) →
  wf s' ∧ qinv (T + total ops) s'.
Proof.
  induction ops as [|[x c] ops IH]; intros T s s' outs Hwf Hq Hpos Hmax Hrun.
  { simpl in *. simplify_eq. by rewrite Z.add_0_r. }
  apply Forall_cons in Hpos as [Hc Hpos]. cbn [snd] in Hc.
  pose proof (total_nonneg ops Hpos) as Htot.
  cbn [total foldr snd] in Hmax. fold (total ops) in Hmax.
  destruct (Insert_outcome Sum64Str s x c Hwf)
    as (s1 & r & HI & Hwf1 & Hn1 & Hl1 & Hout).
  rewrite Inserts_cons, HI in Hrun. cbn [mbind option_bind] in Hrun.
  destruct (Inserts Sum64Str s1 ops) as [[s2 es]|] eqn:Hrest; [|done].
  cbn [mbind option_bind] in Hrun. simplify_eq.
  pose proof (outcome_qinv T s x c s1 r Hq Hc ltac:(lia) Hn1 Hout) as Hq1.
  destruct (IH (T + c)%Z s1 s' es Hwf1 Hq1 Hpos ltac:(lia) Hrest) as [Hwf' Hq'].
  split; [done|].
  cbn [total foldr snd]. fold (total ops).
  by replace (T + (c + total ops))%Z with (T + c + total ops)%Z by lia.
Qed.

(** Along such a run, what a call returns for its key is at least the
    estimate that key had when the run started, and the counts returned
    for one key never go down. *)
Lemma Inserts_counts ops : ∀ T s s' outs,
  wf s → qinv T s → positive ops → (T + total ops ≤ max_int)%Z →
  Inserts Sum64Str s ops = Some (s', outs) →
  (∀ j x c r v, ops !! j = Some (x, c) → outs !! j = Some r →
                count_of Sum64Str s x = Some v → (v ≤ ECount r)%Z) ∧
  (∀ i j x ci cj ri rj, i ≤ j →
     ops !! i = Some (x, ci) → ops !! j = Some (x, cj) →
     outs !! i = Some ri → outs !! j = Some rj →
     (ECount ri ≤ ECount rj)%Z).
Proof.
  induction ops as [|[x0 c0] ops IH]; intros T s s' outs Hwf Hq Hpos Hmax Hrun.
  { split; intros; simplify_list_eq. }
  apply Forall_cons in Hpos as [Hc Hpos]. cbn [snd] in Hc.
  pose proof (total_nonneg ops Hpos) as Htot.
  cbn [total foldr snd] in Hmax. fold (total ops) in Hmax.
  destruct (Insert_outcome Sum64Str s x0 c0 Hwf)
    as (s1 & r0 & HI & Hwf1 & Hn1 & Hl1 & Hout).
  rewrite Inserts_cons, HI in Hrun. cbn [mbind option_bind] in Hrun.
  destruct (Inserts Sum64Str s1 ops) as [[s2 es]|] eqn:Hrest; [|done].
  cbn [mbind option_bind] in Hrun. simplify_eq.
  pose proof (outcome_qinv T s x0 c0 s1 r0 Hq Hc ltac:(lia) Hn1 Hout) as Hq1.
  pose proof (outcome_returned s x0 c0 s1 r0 Hwf Hwf1 Hl1 Hout) as Hret.
  pose proof (outcome_estimates T s x0 c0 s1 r0 Hwf Hwf1 Hq Hc ltac:(lia) Hl1 Hout)
    as Hmono.
  destruct (IH (T + c0)%Z s1 s' es Hwf1 Hq1 Hpos ltac:(lia) Hrest) as [IH1 IH2].
  assert (∀ j x c r v, ((x0, c0) :: ops) !! j = Some (x, c) →
                       (r0 :: es) !! j = Some r →
                       count_of Sum64Str s x = Some v → (v ≤ ECount r)%Z) as H1.
  { intros [|j] x c r v Hop Hr Hv; simpl in Hop, Hr; simplify_eq.
    - by eapply Hmono.
    - destruct (count_of_total s1 x Hwf1) as [v1 Hv1].
      etrans; [by eapply Hmono|]. by eapply IH1. }
  split; [done|].
  intros [|i] [|j] x ci cj ri rj Hij Hi Hj Hri Hrj; simpl in Hi, Hj, Hri, Hrj;
    simplify_eq; try lia.
  - by eapply IH1.
  - eapply (IH2 i j); eauto. lia.
Qed.

(** What [Insert] returns has a non-negative error that is at most the
    count. *)
Lemma outcome_result_bound T s x c s' r :
  qinv T s → qinv (T + c) s' → (0 < c)%Z → (T + c ≤ max_int)%Z →
  outcome Sum64Str s x c s' r →
  (0 ≤ EError r ≤ ECount r)%Z.
Proof.
  intros (_ & HT & _ & Hcell & _) (_ & _ & Hent' & _) Hc Hmax Hout.
  destruct Hout as [idx e0 e' Hx Hidx Hk He' Hperm Hal Hr Hh
                   |e' Hx Hfree He' Hperm Hal Hr Hh
                   |a e0 Hx Hnf Ha H0 Hlt Hks Hal Hr
                   |a e0 a' e' Hx Hnf Ha H0 Hge Hal Ha' He' Hperm Hr Hh].
  - assert (e' ∈ elts (k s')) as Hin.
    { rewrite Hperm. apply list_elem_of_insert. by eapply lookup_lt_Some. }
    rewrite Hr. cbn [export EError ECount]. specialize (Hent' e' Hin). lia.
  - assert (e' ∈ elts (k s')) as Hin by (rewrite Hperm; left).
    rewrite Hr. cbn [export EError ECount]. specialize (Hent' e' Hin). lia.
  - assert (0 ≤ a ≤ T)%Z as Hab by (apply Hcell; by eapply list_elem_of_lookup_2).
    rewrite Hr. cbn [EError ECount]. rewrite (int_wrap_sum T) by done. lia.
  - assert (e' ∈ elts (k s')) as Hin.
    { rewrite Hperm. apply list_elem_of_insert. by eapply lookup_lt_Some. }
    rewrite Hr. cbn [export EError ECount]. specialize (Hent' e' Hin). lia.
Qed.

Lemma Inserts_results ops : ∀ T s s' outs,
  wf s → qinv T s → positive ops → (T + total ops ≤ max_int)%Z →
  Inserts Sum64Str s ops = Some (s', outs) →
  ∀ r, r ∈ outs → (0 ≤ EError r ≤ ECount r)%Z.
Proof.
  induction ops as [|[x c] ops IH]; intros T s s' outs Hwf Hq Hpos Hmax Hrun.
  { simpl in Hrun. simplify_eq. by intros r ?%elem_of_nil. }
  apply Forall_cons in Hpos as [Hc Hpos]. cbn [snd] in Hc.
  pose proof (total_nonneg ops Hpos) as Htot.
  cbn [total foldr snd] in Hmax. fold (total ops) in Hmax.
  destruct (Insert_outcome Sum64Str s x c Hwf)
    as (s1 & r0 & HI & Hwf1 & Hn1 & Hl1 & Hout).
  rewrite Inserts_cons, HI in Hrun. cbn [mbind option_bind] in Hrun.
  destruct (Inserts Sum64Str s1 ops) as [[s2 es]|] eqn:Hrest; [|done].
  cbn [mbind option_bind] in Hrun. simplify_eq.
  pose proof (outcome_qinv T s x c s1 r0 Hq Hc ltac:(lia) Hn1 Hout) as Hq1.
  intros r [->|Hr]%elem_of_cons.
  - eapply (outcome_result_bound T s x c s1); eauto. lia.
  - eapply (IH (T + c)%Z s1 s' es); eauto. lia.
Qed.

(** [Estimate] answers on every well-formed estimator. *)
Lemma Estimate_total s x :
  wf s →
  ∃ r, Estimate Sum64Str s x = Some r ∧
       ((∃ e, e ∈ elts (k s) ∧ r = export e) ∨ EError r = ECount r).
Proof.
  intros (Hwk & _ & _ & Hal). unfold Estimate.
  destruct (m (k s) !! x) as [idx|] eqn:Hx.
  - apply Hwk in Hx as (e & He & _). rewrite He. exists (export e).
    split; [done|]. left. exists e. split; [|done].
    by eapply list_elem_of_lookup_2.
  - destruct (lookup_lt_is_Some_2 (alphas s) _ (slot_lt Sum64Str s x Hal))
      as [a Ha].
    rewrite Ha. eexists. split; [done|]. by right.
Qed.

End Run.

(** * The order of [Keys] *)

Lemma ascii_compare_refl a : Ascii.compare a a = Eq.
Proof. unfold Ascii.compare. apply N.compare_refl. Qed.

Lemma ascii_compare_lt_trans a b c :
  Ascii.compare a b = Lt → Ascii.compare b c = Lt → Ascii.compare a c = Lt.
Proof.
  unfold Ascii.compare. rewrite !N.compare_lt_iff. apply N.lt_trans.
Qed.

Lemma string_compare_refl a : String.compare a a = Eq.
Proof. induction a as [|x a IH]; [done|]. simpl. by rewrite ascii_compare_refl. Qed.

Lemma string_compare_lt_trans a : ∀ b c,
  String.compare a b = Lt → String.compare b c = Lt → String.compare a c = Lt.
Proof.
  induction a as [|x a IH]; intros [|y b] [|z c]; simpl; try done.
  destruct (Ascii.compare x y) eqn:Hxy, (Ascii.compare y z) eqn:Hyz; try done.
  - apply Ascii.compare_eq_iff in Hxy as ->. rewrite Hyz. apply IH.
  - apply Ascii.compare_eq_iff in Hxy as ->. by rewrite Hyz.
  - apply Ascii.compare_eq_iff in Hyz as <-. by rewrite Hxy.
  - by rewrite (ascii_compare_lt_trans x y z).
Qed.

Lemma key_le_iff a b : key_le a b ↔ String.ltb b a = false.
Proof.
  unfold key_le, String.ltb. rewrite (String.compare_antisym b a).
  destruct (String.compare a b) eqn:Hab; simpl; split; try done; try tauto.
  - intros _. left. by apply String.compare_eq_iff.
  - intros [->|?]; [|done]. by rewrite string_compare_refl in Hab.
Qed.

Lemma key_le_trans a b c : key_le a b → key_le b c → key_le a c.
Proof.
  intros [->|Hab] [->|Hbc]; unfold key_le; auto.
  right. unfold String.ltb in *.
  destruct (String.compare a b) eqn:H1; try done.
  destruct (String.compare b c) eqn:H2; try done.
  by rewrite (string_compare_lt_trans a b c).
Qed.

Lemma desc_le_iff a b : desc_le a b ↔ desc_less b a = false.
Proof.
  unfold desc_le, desc_less. rewrite key_le_iff.
  destruct (Z.ltb_spec (Count a) (Count b)), (Z.eqb_spec (Count b) (Count a)),
    (String.ltb (Key b) (Key a)); simpl; split; intros; try done; lia.
Qed.

Lemma desc_less_le a b : desc_less a b = true → desc_le a b.
Proof.
  unfold desc_le, desc_less, key_le.
  destruct (Z.ltb_spec (Count b) (Count a)), (Z.eqb_spec (Count a) (Count b)),
    (String.ltb (Key a) (Key b)); simpl; intros; try done;
    first [left; lia | right; split; [lia|by right]].
Qed.

Lemma desc_le_trans a b c : desc_le a b → desc_le b c → desc_le a c.
Proof.
  unfold desc_le. intros [?|[? Hab]] [?|[? Hbc]]; try (left; lia).
  right. split; [lia|]. by eapply key_le_trans.
Qed.

Lemma sort_insert_perm x l : sort_insert x l ≡ₚ x :: l.
Proof.
  induction l as [|y l IH]; [done|]. simpl.
  destruct (desc_less y x); [|done]. rewrite IH. apply Permutation_swap.
Qed.

Lemma sort_Sort_perm l : sort_Sort l ≡ₚ l.
Proof.
  induction l as [|x l IH]; [done|]. simpl. by rewrite sort_insert_perm, IH.
Qed.

Lemma sort_insert_sorted x l :
  StronglySorted desc_le l → StronglySorted desc_le (sort_insert x l).
Proof.
  induction 1 as [|y l Hs IH Hall]; simpl.
  { repeat constructor. }
  destruct (desc_less y x) eqn:Hyx.
  - constructor; [done|]. rewrite sort_insert_perm.
    constructor; [by apply desc_less_le|done].
  - apply desc_le_iff in Hyx.
    constructor; [by constructor|]. constructor; [done|].
    eapply Forall_impl; [exact Hall|]. intros z Hz. by eapply desc_le_trans.
Qed.

Lemma sort_Sort_sorted l : StronglySorted desc_le (sort_Sort l).
Proof.
  induction l as [|x l IH]; simpl; [constructor|by apply sort_insert_sorted].
Qed.

Lemma export_sorted l :
  StronglySorted desc_le l → StronglySorted by_count_desc (export <$> l).
Proof.
  induction 1 as [|y l Hs IH Hall]; simpl; constructor; [done|].
  apply Forall_fmap. eapply Forall_impl; [exact Hall|]. by intros z Hz.
Qed.

(** * Construction *)

Lemma New_Some n :
  (0 ≤ n)%Z → (0 ≤ int_wrap (n * 6))%Z →
  New n = Some {| n := n; k := {| m := ∅; elts := [] |};
                  alphas := replicate (Z.to_nat (int_wrap (n * 6))) 0%Z |}.
Proof. intros. unfold New. by rewrite !decide_False by lia. Qed.

Lemma New_inv n s0 :
  New n = Some s0 →
  (0 ≤ n)%Z ∧ (0 ≤ int_wrap (n * 6))%Z ∧
  s0 = {| n := n; k := {| m := ∅; elts := [] |};
          alphas := replicate (Z.to_nat (int_wrap (n * 6))) 0%Z |}.
Proof. unfold New. intros H. repeat case_decide; simplify_eq. split_and!; [lia..|done]. Qed.

Lemma int_wrap_table n :
  (1 ≤ n ≤ max_int)%Z → int_wrap (n * 6) ≠ 0%Z.
Proof. unfold int_wrap, max_int. intros. dlia. Qed.

Lemma wf_keys_empty : wf_keys {| m := ∅; elts := [] |}.
Proof.
  intros key i. simpl. rewrite lookup_empty. split; [done|].
  by intros (e & He & _).
Qed.

Lemma heap_ok_nil : heap_ok [].
Proof. by intros c Hc ep ec Hp Hcc. Qed.

Lemma New_wf cap s0 :
  (1 ≤ cap ≤ max_int)%Z → New cap = Some s0 → wf s0 ∧ qinv 0 s0 ∧ n s0 = cap.
Proof.
  intros Hn (H0 & Hlen & ->)%New_inv.
  pose proof (int_wrap_table cap Hn).
  split; [|split; [split_qinv|done]]; cbn [n k alphas elts m].
  - unfold wf; cbn [n k alphas elts m].
    split_and!; [apply wf_keys_empty|lia|simpl; lia|].
    rewrite length_replicate. lia.
  - apply heap_ok_nil.
  - unfold max_int. lia.
  - by intros e ?%elem_of_nil.
  - intros a [-> _]%elem_of_replicate. lia.
  - by intros _ a [-> _]%elem_of_replicate.
  - simpl. lia.
Qed.

(** * The claims *)

Lemma heap_ok_singleton e : heap_ok [e].
Proof.
  intros c Hc ep ec Hp Hcc. destruct c as [|c]; [lia|]. by simpl in Hcc.
Qed.

(** C1.  On a full monitored set, for a key [x] that is not monitored
    whose cell holds [h]: when [h + count] (the sum the code computes)
    is below the minimum monitored count, [Insert] leaves the monitored
    set exactly as it was, [x] stays unmonitored, the cell of [x] goes
    from [h] to [h + count], and the call returns [(x, h + count, h)]. *)
Theorem C1_filtered_insert Sum64Str s x count h mc :
  Z.of_nat (length (elts (k s))) = n s →
  m (k s) !! x = None →
  heap_ok (elts (k s)) →
  alphas s !! slot Sum64Str s x = Some h →
  (∃ e, e ∈ elts (k s) ∧ Count e = mc) →
  (∀ e, e ∈ elts (k s) → (mc ≤ Count e)%Z) →
  (int_wrap (h + count) < mc)%Z →
  ∃ s',
    Insert Sum64Str s x count =
      Some (s', {| EKey := x; ECount := int_wrap (h + count); EError := h |}) ∧
    k s' = k s ∧ m (k s') !! x = None ∧ n s' = n s ∧
    alphas s' = <[slot Sum64Str s x := int_wrap (h + count)]> (alphas s) ∧
    alphas s' !! slot Sum64Str s x = Some (int_wrap (h + count)).
Proof.
  intros Hfull Hx Hheap Hh (em & Hem & Hmc) Hmin Hlt.
  apply list_elem_of_lookup in Hem as Hpos. destruct Hpos as [p Hp].
  destruct (lookup_lt_is_Some_2 (elts (k s)) 0) as [e0 H0].
  { apply lookup_lt_Some in Hp. lia. }
  assert (Count e0 = mc) as Hroot.
  { pose proof (le_elt_Count _ _ (heap_ok_root _ _ _ Hheap H0 Hem)).
    assert (e0 ∈ elts (k s)) as Hin0 by by eapply list_elem_of_lookup_2.
    specialize (Hmin e0 Hin0). lia. }
  exists {| n := n s; k := k s;
            alphas := <[slot Sum64Str s x := int_wrap (h + count)]> (alphas s) |}.
  split_and!; try done.
  - unfold Insert. rewrite Hx. rewrite decide_False by lia.
    rewrite Hh, H0. cbn [mbind option_bind].
    rewrite decide_True by lia. reflexivity.
  - cbn [alphas]. apply list_lookup_insert_eq. by eapply lookup_lt_Some.
Qed.

(** C2, as the code has it.  From [New cap] with [cap ≥ 1], after any run of
    [Insert] calls with positive counts, when one more [Insert] with a
    positive count evicts the minimum entry, and the counts inserted so
    far and the new one add up to no more than the largest [int]: the
    evicted count is written over the cell of the evicted key, the cell
    held no more than that count, and so it holds afterwards the maximum
    of what it held and the evicted count. *)
Theorem C2_eviction_overwrites Sum64Str cap ops s0 s outs x c h e0 before :
  (1 ≤ cap ≤ max_int)%Z → New cap = Some s0 →
  positive ops → Inserts Sum64Str s0 ops = Some (s, outs) →
  (0 < c)%Z → (total ops + c ≤ max_int)%Z →
  m (k s) !! x = None →
  Z.of_nat (length (elts (k s))) = n s →
  alphas s !! slot Sum64Str s x = Some h →
  elts (k s) !! 0 = Some e0 →
  ¬ (int_wrap (h + c) < Count e0)%Z →
  alphas s !! slot Sum64Str s (Key e0) = Some before →
  ∃ s' r,
    Insert Sum64Str s x c = Some (s', r) ∧
    alphas s' = <[slot Sum64Str s (Key e0) := Count e0]> (alphas s) ∧
    (before ≤ Count e0)%Z ∧
    alphas s' !! slot Sum64Str s (Key e0) = Some (Z.max before (Count e0)).
Proof.
  intros Hn HNew Hpos Hrun Hc Hmax Hx Hfull Hh H0 Hge Hbefore.
  destruct (New_wf cap s0 Hn HNew) as (Hwf0 & Hq0 & _).
  pose proof (total_nonneg ops Hpos) as Htot.
  destruct (Inserts_qinv Sum64Str ops 0 s0 s outs Hwf0 Hq0 Hpos ltac:(lia) Hrun)
    as [_ (_ & _ & _ & _ & _ & Hcells)].
  assert (before ≤ Count e0)%Z as Hle.
  { apply Hcells; [lia| |].
    - by eapply list_elem_of_lookup_2.
    - by eapply list_elem_of_lookup_2. }
  destruct (Insert_evict Sum64Str s x c h e0)
    as (s' & r & a' & e' & HI & _ & Hal & _); [done|lia|done..|].
  exists s', r. split_and!; [done|done|done|].
  rewrite Z.max_r by done.
  rewrite Hal. apply list_lookup_insert_eq. by eapply lookup_lt_Some.
Qed.

(** C3, as the code has it.  From [New n] with [n ≥ 1], after any run of
    [Insert] calls with positive counts, one more [Insert] with a positive
    count lowers no cell of the error table, provided the counts inserted
    so far and the new one add up to no more than the largest [int]. *)
Theorem C3_cells_monotone Sum64Str n ops s0 s outs x c :
  (1 ≤ n ≤ max_int)%Z → New n = Some s0 →
  positive ops → Inserts Sum64Str s0 ops = Some (s, outs) →
  (0 < c)%Z → (total ops + c ≤ max_int)%Z →
  ∃ s' r,
    Insert Sum64Str s x c = Some (s', r) ∧
    length (alphas s') = length (alphas s) ∧
    ∀ i a a', alphas s !! i = Some a → alphas s' !! i = Some a' → (a ≤ a')%Z.
Proof.
  intros Hn HNew Hpos Hrun Hc Hmax.
  destruct (New_wf n s0 Hn HNew) as (Hwf0 & Hq0 & _).
  pose proof (total_nonneg ops Hpos) as Htot.
  destruct (Inserts_qinv Sum64Str ops 0 s0 s outs Hwf0 Hq0 Hpos ltac:(lia) Hrun)
    as [Hwf Hq].
  rewrite Z.add_0_l in Hq.
  destruct (Insert_outcome Sum64Str s x c Hwf)
    as (s' & r & HI & _ & _ & Hlen & Hout).
  exists s', r. split_and!; [done..|].
  by eapply outcome_cells.
Qed.

(** C4, as the code has it.  In the evicting case the replacement entry
    and the returned element carry [count = h' + count] and [error = h'],
    where [h'] is the cell of [x] read after the evicted count has been
    archived: the value [h] the cell had at the start of the call when
    [x] and the evicted key use different cells, and the evicted count
    when they share one. *)
Theorem C4_replacement_entry Sum64Str s x count h e0 :
  m (k s) !! x = None →
  Z.of_nat (length (elts (k s))) = n s →
  alphas s !! slot Sum64Str s x = Some h →
  elts (k s) !! 0 = Some e0 →
  ¬ (int_wrap (h + count) < Count e0)%Z →
  let h' := if decide (slot Sum64Str s x = slot Sum64Str s (Key e0))
            then Count e0 else h in
  let e' := {| Key := x; Count := int_wrap (h' + count); Error := h' |} in
  ∃ s', Insert Sum64Str s x count = Some (s', export e') ∧
        e' ∈ elts (k s').
Proof.
  intros Hx Hfull Hh H0 Hge h' e'.
  destruct (Insert_evict Sum64Str s x count h e0)
    as (s' & r & a' & e'' & HI & _ & Hal & Ha' & He'' & Hperm & Hr & _);
    [done|lia|done..|].
  assert (a' = h') as ->.
  { rewrite Hal in Ha'. subst h'.
    apply list_lookup_insert_Some in Ha' as [(Heq & <- & _)|[Hne Ha']].
    - by rewrite decide_True.
    - rewrite decide_False by done. congruence. }
  exists s'. subst e'' r. fold e'. split; [done|].
  rewrite Hperm. apply list_elem_of_insert. by eapply lookup_lt_Some.
Qed.

(** C5, as the code has it.  [New] checks nothing.  A negative capacity
    makes it panic; capacity zero is accepted and gives an estimator with
    an empty monitored set and an empty error table, on which every
    [Insert] and every [Estimate] panics. *)
Theorem C5_nonpositive_capacity Sum64Str n :
  (n ≤ 0)%Z →
  ((n < 0)%Z → New n = None) ∧
  (n = 0%Z →
   ∃ s0, New n = Some s0 ∧ elts (k s0) = [] ∧ alphas s0 = [] ∧
         ∀ x c, Insert Sum64Str s0 x c = None ∧ Estimate Sum64Str s0 x = None).
Proof.
  intros Hn. split.
  - intros Hneg. unfold New. by rewrite decide_True.
  - intros ->. eexists. split; [reflexivity|]. cbn [k elts alphas].
    change (Z.to_nat (int_wrap (0 * 6))) with 0. cbn [replicate].
    split_and!; [done..|]. intros x c. split; reflexivity.
Qed.

(** C6.  From [New n] with [n ≥ 1], every run of [Insert] calls goes
    through without a panic, and after it the slice and the key index of
    the monitored set hold at most [n] entries.  The run is arbitrary, so
    the bound holds after each of its calls. *)
Theorem C6_capacity_bound Sum64Str n ops s0 :
  (1 ≤ n ≤ max_int)%Z → New n = Some s0 →
  ∃ s outs,
    Inserts Sum64Str s0 ops = Some (s, outs) ∧
    (Z.of_nat (length (elts (k s))) ≤ n)%Z ∧
    (Z.of_nat (size (m (k s))) ≤ n)%Z.
Proof.
  intros Hn HNew.
  destruct (New_wf n s0 Hn HNew) as (Hwf0 & _ & Hn0).
  destruct (Inserts_wf Sum64Str ops s0 Hwf0)
    as (s & outs & Hrun & (Hwk & _ & Hcap & _) & Hns & _).
  exists s, outs. rewrite (wf_keys_size _ Hwk). split_and!; [done|lia|lia].
Qed.

(** C7, as the code has it.  From [New n] with [n ≥ 1], along a run of
    [Insert] calls with positive counts that add up to no more than the
    largest [int], the counts returned by the calls on one key never go
    down, whatever other keys are inserted in between. *)
Theorem C7_counts_monotone Sum64Str n ops s0 :
  (1 ≤ n ≤ max_int)%Z → New n = Some s0 →
  positive ops → (total ops ≤ max_int)%Z →
  ∃ s outs,
    Inserts Sum64Str s0 ops = Some (s, outs) ∧
    ∀ i j x ci cj ri rj, i ≤ j →
      ops !! i = Some (x, ci) → ops !! j = Some (x, cj) →
      outs !! i = Some ri → outs !! j = Some rj →
      (ECount ri ≤ ECount rj)%Z.
Proof.
  intros Hn HNew Hpos Hmax.
  destruct (New_wf n s0 Hn HNew) as (Hwf0 & Hq0 & _).
  destruct (Inserts_wf Sum64Str ops s0 Hwf0) as (s & outs & Hrun & _).
  exists s, outs. split; [done|].
  by destruct (Inserts_counts Sum64Str ops 0 s0 s outs Hwf0 Hq0 Hpos
                 ltac:(lia) Hrun) as [_ H].
Qed.


(** C9, as the code has it.  For a capacity [n ≥ 1] whose table length
    [6n] is an [int], [reduce] maps every hash into [[0, 6n)], so no run
    of [Insert] calls and no [Estimate] reads or writes outside the table
    of [6n] cells; the index equals [floor(low32(h) * 6n / 2^32)] when
    [6n ≤ 2^32]. *)
Theorem C9_hash_index n h :
  (1 ≤ n)%Z → (n * 6 ≤ max_int)%Z →
  (0 ≤ reduce h (n * 6) < n * 6)%Z ∧
  ((n * 6 ≤ 2 ^ 32)%Z →
   reduce h (n * 6) = (((h mod 2 ^ 32) * (n * 6)) / 2 ^ 32)%Z) ∧
  ∃ s0, New n = Some s0 ∧ Z.of_nat (length (alphas s0)) = (n * 6)%Z ∧
    ∀ Sum64Str ops, ∃ s outs,
      Inserts Sum64Str s0 ops = Some (s, outs) ∧
      length (alphas s) = length (alphas s0) ∧
      ∀ x, slot Sum64Str s x < length (alphas s) ∧
           is_Some (Estimate Sum64Str s x).
Proof.
  intros Hn Hmax.
  assert (int_wrap (n * 6) = (n * 6)%Z) as Hw.
  { apply int_wrap_id. unfold min_int. lia. }
  split_and!.
  - apply reduce_nonneg.
  - apply reduce_lt. lia.
  - intros Hsmall. apply reduce_exact. lia.
  - eexists. split; [apply New_Some; lia|]. cbn [alphas].
    rewrite length_replicate, Hw, Z2Nat.id by lia. split; [done|].
    intros Sum64Str ops.
    edestruct (New_wf n) as (Hwf0 & _); [|apply New_Some; lia|].
    { unfold max_int in *. lia. }
    destruct (Inserts_wf Sum64Str ops _ Hwf0)
      as (s & outs & Hrun & Hwf & _ & Hlen & _).
    exists s, outs. cbn [alphas] in Hlen. rewrite Hw in Hlen.
    split_and!; [by rewrite Hw in Hrun|by rewrite Hlen, length_replicate|].
    intros x. split.
    + apply slot_lt. by destruct Hwf as (_ & _ & _ & ?).
    + destruct (Estimate_total Sum64Str s x Hwf) as (r & -> & _). by eexists.
Qed.

(** C10, as the code has it.  From [New n] with [n ≥ 1], after a run of
    [Insert] calls with positive counts that add up to no more than the
    largest [int], every monitored entry has [0 ≤ Error ≤ Count], every
    element the run returned has [Error ≤ Count], and so has every answer
    of [Estimate]. *)
Theorem C10_error_le_count Sum64Str n ops s0 s outs :
  (1 ≤ n ≤ max_int)%Z → New n = Some s0 →
  positive ops → (total ops ≤ max_int)%Z →
  Inserts Sum64Str s0 ops = Some (s, outs) →
  (∀ e, e ∈ elts (k s) → (0 ≤ Error e ≤ Count e)%Z) ∧
  (∀ r, r ∈ outs → (0 ≤ EError r ≤ ECount r)%Z) ∧
  (∀ x, ∃ r, Estimate Sum64Str s x = Some r ∧ (EError r ≤ ECount r)%Z).
Proof.
  intros Hn HNew Hpos Hmax Hrun.
  destruct (New_wf n s0 Hn HNew) as (Hwf0 & Hq0 & _).
  destruct (Inserts_qinv Sum64Str ops 0 s0 s outs Hwf0 Hq0 Hpos ltac:(lia) Hrun)
    as [Hwf (_ & _ & Hent & _)].
  split_and!.
  - intros e He. specialize (Hent e He). lia.
  - by eapply (Inserts_results Sum64Str ops 0 s0 s outs).
  - intros x. destruct (Estimate_total Sum64Str s x Hwf) as (r & HE & Hr).
    exists r. split; [done|]. destruct Hr as [(e & He & ->)|Heq]; [|lia].
    specialize (Hent e He). cbn [export EError ECount]. lia.
Qed.

(** * Further properties of the estimator *)

(** * The heap order on every run *)




Section HeapRuns.

Variable Sum64Str : Z → Z → string → Z.



End HeapRuns.


(** X2.  From [New n] with [n ≥ 1], no run of [Insert] calls panics,
    each call returns an element, and afterwards the index maps a key to
    a position exactly when the slice holds an entry with that key at
    that position. *)
Theorem X2_index_consistent Sum64Str n ops s0 :
  (1 ≤ n ≤ max_int)%Z → New n = Some s0 →
  ∃ s outs,
    Inserts Sum64Str s0 ops = Some (s, outs) ∧ length outs = length ops ∧
    ∀ key i, m (k s) !! key = Some i ↔
             ∃ e, elts (k s) !! i = Some e ∧ Key e = key.
Proof.
  intros Hn HNew.
  destruct (New_wf n s0 Hn HNew) as (Hwf0 & _).
  destruct (Inserts_wf Sum64Str ops s0 Hwf0)
    as (s & outs & Hrun & (Hwk & _) & _ & _ & Hlen).
  by exists s, outs.
Qed.

(** * Error bounds against the true counts *)

Section Sound.

Variable Sum64Str : Z → Z → string → Z.

(** The count returned for [x] exceeds the estimate [x] had before the
    call by at least the inserted count. *)
Lemma outcome_gain T s x c s' r :
  wf s → qinv T s → (0 < c)%Z → (T + c ≤ max_int)%Z →
  outcome Sum64Str s x c s' r →
  ∀ v, count_of Sum64Str s x = Some v → (v + c ≤ ECount r)%Z.
Proof.
  intros Hwf Hq Hc Hmax Hout v Hv.
  pose proof (outcome_cells Sum64Str T s x c s' r Hq Hc Hmax Hout) as Hcells.
  destruct Hwf as (Hwk & _).
  destruct Hq as (Hheap & HT & Hent & Hcell & Hzero & Hfull).
  destruct Hout as [idx e0 e' Hx Hidx Hk He' Hperm Hal Hr Hh
                   |e' Hx Hfree He' Hperm Hal Hr Hh
                   |a e0 Hx Hnf Ha H0 Hlt Hks Hal Hr
                   |a e0 a' e' Hx Hnf Ha H0 Hge Hal Ha' He' Hperm Hr Hh].
  - assert (e0 ∈ elts (k s)) as Hin0 by by eapply list_elem_of_lookup_2.
    rewrite <-Hk, (count_of_tracked Sum64Str s e0) in Hv by done.
    simplify_eq. cbn [export ECount Count].
    rewrite (int_wrap_sum T); [lia| |done..]. specialize (Hent e0 Hin0). lia.
  - rewrite count_of_untracked in Hv by (done || by apply untracked_iff).
    apply list_elem_of_lookup_2 in Hv. rewrite (Hzero Hfree v Hv).
    subst. cbn [export ECount Count]. lia.
  - rewrite count_of_untracked in Hv by (done || by apply untracked_iff).
    simplify_eq. cbn [ECount].
    rewrite (int_wrap_sum T); [lia| |done..].
    apply Hcell. by eapply list_elem_of_lookup_2.
  - rewrite count_of_untracked in Hv by (done || by apply untracked_iff).
    simplify_eq. cbn [export ECount Count].
    assert (a ≤ a')%Z by by eapply Hcells.
    assert (0 ≤ a' ≤ T)%Z.
    { rewrite Hal in Ha'. apply list_elem_of_lookup_2 in Ha'.
      apply elem_of_insert_inv in Ha' as [->|Ha']; [|by apply Hcell].
      assert (e0 ∈ elts (k s)) as Hin0 by by eapply list_elem_of_lookup_2.
      specialize (Hent e0 Hin0). lia. }
    rewrite (int_wrap_sum T) by done. lia.
Qed.

(** One call keeps the two bounds: every estimate is at least the true
    count [tr], and every monitored entry has [Count - Error ≤ tr]. *)
Lemma outcome_sound T s x c s' r (tr : string → Z) :
  wf s → wf s' → qinv T s → (0 < c)%Z → (T + c ≤ max_int)%Z →
  length (alphas s') = length (alphas s) →
  outcome Sum64Str s x c s' r →
  (∀ y, 0 ≤ tr y)%Z →
  (∀ y v, count_of Sum64Str s y = Some v → (tr y ≤ v)%Z) →
  (∀ e, e ∈ elts (k s) → (Count e - Error e ≤ tr (Key e))%Z) →
  let tr' := λ y, if decide (y = x) then (tr y + c)%Z else tr y in
  (∀ y v, count_of Sum64Str s' y = Some v → (tr' y ≤ v)%Z) ∧
  (∀ e, e ∈ elts (k s') → (Count e - Error e ≤ tr' (Key e))%Z) ∧
  (tr x + c ≤ ECount r)%Z ∧ (ECount r - EError r ≤ tr x + c)%Z.
Proof.
  intros Hwf Hwf' Hq Hc Hmax Hlen Hout Htr Hup Hlow tr'.
  pose proof (outcome_gain T s x c s' r Hwf Hq Hc Hmax Hout) as Hgain.
  pose proof (outcome_returned Sum64Str s x c s' r Hwf Hwf' Hlen Hout) as Hret.
  pose proof (outcome_estimates Sum64Str T s x c s' r Hwf Hwf' Hq Hc Hmax Hlen Hout)
    as Hmono.
  destruct (count_of_total Sum64Str s x Hwf) as [vx Hvx].
  assert (tr x + c ≤ ECount r)%Z as Hupx.
  { specialize (Hgain vx Hvx). specialize (Hup x vx Hvx). lia. }
  assert (∀ e, e ∈ elts (k s) → (Count e - Error e ≤ tr' (Key e))%Z) as Hold.
  { intros e He. specialize (Hlow e He). subst tr'. cbn beta.
    case_decide; lia. }
  assert (tr' x = (tr x + c)%Z) as Htrx.
  { subst tr'. cbn beta. by rewrite decide_True. }
  assert ((∀ e, e ∈ elts (k s') → (Count e - Error e ≤ tr' (Key e))%Z) ∧
          (ECount r - EError r ≤ tr x + c)%Z) as [Hlow' Hlowx].
  { destruct Hq as (Hheap & HT & Hent & Hcell & Hzero & Hfull).
    destruct Hout as [idx e0 e' Hx Hidx Hk He' Hperm Hal Hr Hh
                     |e' Hx Hfree He' Hperm Hal Hr Hh
                     |a e0 Hx Hnf Ha H0 Hlt Hks Hal Hr
                     |a e0 a' e' Hx Hnf Ha H0 Hge Hal Ha' He' Hperm Hr Hh].
    - assert (e0 ∈ elts (k s)) as Hin0 by by eapply list_elem_of_lookup_2.
      assert (Count e' - Error e' ≤ tr x + c)%Z as Hnew.
      { subst e'. cbn [Count Error]. rewrite (int_wrap_sum T); [| |done..].
        - specialize (Hlow e0 Hin0). rewrite Hk in Hlow. lia.
        - specialize (Hent e0 Hin0). lia. }
      split; [|by subst r].
      intros e. rewrite Hperm. intros [->|He]%elem_of_insert_inv; [|by apply Hold].
      assert (Key e' = x) as -> by by subst e'. by rewrite Htrx.
    - assert (Count e' - Error e' ≤ tr x + c)%Z as Hnew.
      { subst e'. cbn [Count Error]. specialize (Htr x). lia. }
      split; [|by subst r].
      intros e. rewrite Hperm. intros [->|He]%elem_of_cons; [|by apply Hold].
      assert (Key e' = x) as -> by by subst e'. by rewrite Htrx.
    - split; [by rewrite Hks|]. subst r. cbn [ECount EError].
      rewrite (int_wrap_sum T); [| |done..].
      + specialize (Htr x). lia.
      + apply Hcell. by eapply list_elem_of_lookup_2.
    - assert (e0 ∈ elts (k s)) as Hin0 by by eapply list_elem_of_lookup_2.
      assert (0 ≤ a' ≤ T)%Z.
      { rewrite Hal in Ha'. apply list_elem_of_lookup_2 in Ha'.
        apply elem_of_insert_inv in Ha' as [->|Ha']; [|by apply Hcell].
        specialize (Hent e0 Hin0). lia. }
      assert (Count e' - Error e' ≤ tr x + c)%Z as Hnew.
      { subst e'. cbn [Count Error]. rewrite (int_wrap_sum T) by done.
        specialize (Htr x). lia. }
      split; [|by subst r].
      intros e. rewrite Hperm. intros [->|He]%elem_of_insert_inv; [|by apply Hold].
      assert (Key e' = x) as -> by by subst e'. by rewrite Htrx. }
  split_and!; [|done..].
  intros y v' Hv'. subst tr'. cbn beta. case_decide as Hy.
  - subst y. rewrite Hret in Hv'. simplify_eq. lia.
  - destruct (count_of_total Sum64Str s y Hwf) as [v Hv].
    specialize (Hup y v Hv). specialize (Hmono y v v' Hv Hv'). lia.
Qed.

Lemma occurrences_cons y x c ops :
  occurrences y ((x, c) :: ops) =
    if decide (x = y) then (c + occurrences y ops)%Z else occurrences y ops.
Proof. reflexivity. Qed.

Lemma Inserts_sound ops : ∀ (tr : string → Z) T s s' outs,
  wf s → qinv T s → positive ops → (T + total ops ≤ max_int)%Z →
  (∀ y, 0 ≤ tr y)%Z →
  (∀ y v, count_of Sum64Str s y = Some v → (tr y ≤ v)%Z) →
  (∀ e, e ∈ elts (k s) → (Count e - Error e ≤ tr (Key e))%Z) →
  Inserts Sum64Str s ops = Some (s', outs) →
  (∀ y v, count_of Sum64Str s' y = Some v → (tr y + occurrences y ops ≤ v)%Z) ∧
  (∀ e, e ∈ elts (k s') →
        (Count e - Error e ≤ tr (Key e) + occurrences (Key e) ops)%Z) ∧
  (∀ j x c r, ops !! j = Some (x, c) → outs !! j = Some r →
     (tr x + occurrences x (take (S j) ops) ≤ ECount r)%Z ∧
     (ECount r - EError r ≤ tr x + occurrences x (take (S j) ops))%Z).
Proof.
  induction ops as [|[x0 c0] ops IH];
    intros tr T s s' outs Hwf Hq Hpos Hmax Htr Hup Hlow Hrun.
  { simpl in Hrun. simplify_eq. split_and!.
    - intros y v Hv. specialize (Hup y v Hv). simpl. lia.
    - intros e He. specialize (Hlow e He). simpl. lia.
    - intros j x c r Hj. by rewrite lookup_nil in Hj. }
  apply Forall_cons in Hpos as [Hc Hpos]. cbn [snd] in Hc.
  pose proof (total_nonneg ops Hpos) as Htot.
  cbn [total foldr snd] in Hmax. fold (total ops) in Hmax.
  destruct (Insert_outcome Sum64Str s x0 c0 Hwf)
    as (s1 & r0 & HI & Hwf1 & Hn1 & Hl1 & Hout).
  rewrite Inserts_cons, HI in Hrun. cbn [mbind option_bind] in Hrun.
  destruct (Inserts Sum64Str s1 ops) as [[s2 es]|] eqn:Hrest; [|done].
  cbn [mbind option_bind] in Hrun. simplify_eq.
  pose proof (outcome_qinv Sum64Str T s x0 c0 s1 r0 Hq Hc ltac:(lia) Hn1 Hout) as Hq1.
  destruct (outcome_sound T s x0 c0 s1 r0 tr Hwf Hwf1 Hq Hc ltac:(lia) Hl1 Hout
              Htr Hup Hlow) as (Hup1 & Hlow1 & Hr0u & Hr0l).
  set (tr1 := λ y, if decide (y = x0) then (tr y + c0)%Z else tr y) in *.
  assert (∀ y, 0 ≤ tr1 y)%Z as Htr1.
  { intros y. subst tr1. cbn beta. specialize (Htr y). case_decide; lia. }
  destruct (IH tr1 (T + c0)%Z s1 s' es Hwf1 Hq1 Hpos ltac:(lia) Htr1 Hup1 Hlow1 Hrest)
    as (IHup & IHlow & IHret).
  assert (∀ y, tr1 y + occurrences y ops =
               tr y + occurrences y ((x0, c0) :: ops))%Z as Heq.
  { intros y. rewrite occurrences_cons. subst tr1. cbn beta.
    repeat case_decide; subst; try done; lia. }
  split_and!.
  - intros y v Hv. rewrite <-Heq. by apply IHup.
  - intros e He. rewrite <-Heq. by apply IHlow.
  - intros [|j] x c r Hop Hr; simpl in Hop, Hr; simplify_eq.
    + cbn [take]. rewrite occurrences_cons, decide_True by done.
      simpl. lia.
    + destruct (IHret j x c r Hop Hr) as [Hu Hl].
      change (take (S (S j)) ((x0, c0) :: ops)) with ((x0, c0) :: take (S j) ops).
      assert (tr1 x + occurrences x (take (S j) ops) =
              tr x + occurrences x ((x0, c0) :: take (S j) ops))%Z as Heq'.
      { rewrite occurrences_cons. subst tr1. cbn beta.
        repeat case_decide; subst; try done; lia. }
      rewrite <-Heq'. done.
Qed.

End Sound.

(** * Estimates, keys and true counts on the runs from [New] *)

Section Reach.

Variable Sum64Str : Z → Z → string → Z.

Lemma Estimate_tracked s e :
  wf_keys (k s) → e ∈ elts (k s) →
  Estimate Sum64Str s (Key e) = Some (export e) ∧ is_Some (m (k s) !! Key e).
Proof.
  intros Hwf [i Hi]%list_elem_of_lookup. unfold Estimate.
  assert (m (k s) !! Key e = Some i) as -> by (apply Hwf; eauto).
  rewrite Hi. by split.
Qed.

Lemma Estimate_key s y r :
  wf_keys (k s) → Estimate Sum64Str s y = Some r → EKey r = y.
Proof.
  intros Hwf. unfold Estimate.
  destruct (m (k s) !! y) as [i|] eqn:Hy.
  - apply Hwf in Hy as (e & -> & <-). by intros [= <-].
  - destruct (alphas s !! slot Sum64Str s y); [|done]. by intros [= <-].
Qed.

Lemma New_run cap ops s0 s outs :
  (1 ≤ cap ≤ max_int)%Z → New cap = Some s0 →
  Inserts Sum64Str s0 ops = Some (s, outs) →
  wf s ∧ n s = cap.
Proof.
  intros Hn HNew Hrun.
  destruct (New_wf cap s0 Hn HNew) as (Hwf0 & _ & Hn0).
  destruct (Inserts_wf Sum64Str ops s0 Hwf0) as (s' & outs' & Hrun' & Hwf & Hns & _).
  rewrite Hrun in Hrun'. simplify_eq. split; [done|congruence].
Qed.

Lemma New_sound cap ops s0 s outs :
  (1 ≤ cap ≤ max_int)%Z → New cap = Some s0 →
  positive ops → (total ops ≤ max_int)%Z →
  Inserts Sum64Str s0 ops = Some (s, outs) →
  (∀ y v, count_of Sum64Str s y = Some v → (occurrences y ops ≤ v)%Z) ∧
  (∀ e, e ∈ elts (k s) → (Count e - Error e ≤ occurrences (Key e) ops)%Z) ∧
  (∀ j x c r, ops !! j = Some (x, c) → outs !! j = Some r →
     (occurrences x (take (S j) ops) ≤ ECount r)%Z ∧
     (ECount r - EError r ≤ occurrences x (take (S j) ops))%Z).
Proof.
  intros Hn HNew Hpos Hmax Hrun.
  destruct (New_wf cap s0 Hn HNew) as (Hwf0 & Hq0 & _).
  apply New_inv in HNew as (_ & _ & Hs0).
  destruct (Inserts_sound Sum64Str ops (λ _, 0%Z) 0 s0 s outs Hwf0 Hq0 Hpos
              ltac:(lia)) as (H1 & H2 & H3); try done.
  - intros y v Hv. destruct Hq0 as (_ & _ & _ & Hcell & _).
    rewrite count_of_untracked in Hv.
    + apply list_elem_of_lookup_2 in Hv. specialize (Hcell v Hv). lia.
    + by destruct Hwf0.
    + subst s0. by intros e ?%elem_of_nil.
  - subst s0. by intros e ?%elem_of_nil.
Qed.

End Reach.

(** X3.  Estimates never fall short.  From [New n] with [n ≥ 1], after a run
    of [Insert] calls with positive counts adding up to no more than the
    largest [int], [Estimate] answers for every key, inserted or not, with
    a count that is at least the sum of the counts inserted for it. *)
Theorem X3_Estimate_never_under Sum64Str n ops s0 s outs y :
  (1 ≤ n ≤ max_int)%Z → New n = Some s0 →
  positive ops → (total ops ≤ max_int)%Z →
  Inserts Sum64Str s0 ops = Some (s, outs) →
  ∃ r, Estimate Sum64Str s y = Some r ∧ EKey r = y ∧
       (occurrences y ops ≤ ECount r)%Z.
Proof.
  intros Hn HNew Hpos Hmax Hrun.
  destruct (New_run Sum64Str n ops s0 s outs Hn HNew Hrun) as [Hwf _].
  destruct (New_sound Sum64Str n ops s0 s outs Hn HNew Hpos Hmax Hrun) as (H1 & _).
  destruct (Estimate_total Sum64Str s y Hwf) as (r & HE & _).
  exists r. split_and!; [done| |].
  - eapply Estimate_key; [|done]. by destruct Hwf.
  - apply H1. unfold count_of. by rewrite HE.
Qed.

(** X4.  The error bound of a monitored entry.  On such a run, for every
    monitored entry the true count of its key lies between
    [Count - Error] and [Count]. *)
Theorem X4_monitored_error_bound Sum64Str n ops s0 s outs e :
  (1 ≤ n ≤ max_int)%Z → New n = Some s0 →
  positive ops → (total ops ≤ max_int)%Z →
  Inserts Sum64Str s0 ops = Some (s, outs) →
  e ∈ elts (k s) →
  (Count e - Error e ≤ occurrences (Key e) ops ≤ Count e)%Z.
Proof.
  intros Hn HNew Hpos Hmax Hrun He.
  destruct (New_run Sum64Str n ops s0 s outs Hn HNew Hrun) as [(Hwk & _) _].
  destruct (New_sound Sum64Str n ops s0 s outs Hn HNew Hpos Hmax Hrun)
    as (H1 & H2 & _).
  split; [by apply H2|]. apply H1. by apply count_of_tracked.
Qed.

(** X5.  The error bound of what [Insert] returns.  On such a run, the element
    returned by the call number [j], on the key [x], brackets the sum of
    the counts inserted for [x] up to and including that call between
    [Count - Error] and [Count]. *)
Theorem X5_returned_error_bound Sum64Str n ops s0 s outs j x c r :
  (1 ≤ n ≤ max_int)%Z → New n = Some s0 →
  positive ops → (total ops ≤ max_int)%Z →
  Inserts Sum64Str s0 ops = Some (s, outs) →
  ops !! j = Some (x, c) → outs !! j = Some r →
  (ECount r - EError r ≤ occurrences x (take (S j) ops) ≤ ECount r)%Z.
Proof.
  intros Hn HNew Hpos Hmax Hrun Hj Hr.
  destruct (New_sound Sum64Str n ops s0 s outs Hn HNew Hpos Hmax Hrun)
    as (_ & _ & H3).
  destruct (H3 j x c r Hj Hr). lia.
Qed.

(** X6.  [Estimate] after [Insert].  From [New n] with [n ≥ 1] and after any
    run, a further [Insert(x, c)], with any count, goes through, and
    [Estimate(x)] right after it reports the count that the call
    returned.  It is the very element the call returned when [x] is
    monitored afterwards; when [x] was filtered, [Estimate] reports that
    count as the error too. *)
Theorem X6_Estimate_after_Insert Sum64Str n ops s0 s outs x c :
  (1 ≤ n ≤ max_int)%Z → New n = Some s0 →
  Inserts Sum64Str s0 ops = Some (s, outs) →
  ∃ s' r r',
    Insert Sum64Str s x c = Some (s', r) ∧
    Estimate Sum64Str s' x = Some r' ∧
    EKey r = x ∧ EKey r' = x ∧ ECount r' = ECount r ∧
    ((is_Some (m (k s') !! x) ∧ r' = r) ∨
     (m (k s') !! x = None ∧ k s' = k s ∧ EError r' = ECount r)).
Proof.
  intros Hn HNew Hrun.
  destruct (New_run Sum64Str n ops s0 s outs Hn HNew Hrun) as [Hwf _].
  destruct (Insert_outcome Sum64Str s x c Hwf)
    as (s' & r & HI & Hwf' & _ & Hlen & Hout).
  destruct Hwf' as (Hwk' & _).
  assert (∀ e', e' ∈ elts (k s') → Key e' = x → r = export e' →
    ∃ r', Estimate Sum64Str s' x = Some r' ∧
      EKey r = x ∧ EKey r' = x ∧ ECount r' = ECount r ∧
      ((is_Some (m (k s') !! x) ∧ r' = r) ∨
       (m (k s') !! x = None ∧ k s' = k s ∧ EError r' = ECount r))) as Htr.
  { intros e' Hin <- ->.
    destruct (Estimate_tracked Sum64Str s' e' Hwk' Hin) as [HE Hm].
    exists (export e'). split_and!; try done. by left. }
  destruct Hout as [idx e0 e' Hx Hidx Hk He' Hperm Hal Hr Hh
                   |e' Hx Hfree He' Hperm Hal Hr Hh
                   |a e0 Hx Hnf Ha H0 Hlt Hks Hal Hr
                   |a e0 a' e' Hx Hnf Ha H0 Hge Hal Ha' He' Hperm Hr Hh].
  - destruct (Htr e') as (r' & ?); [| |done|by exists s', r, r'].
    + rewrite Hperm. apply list_elem_of_insert. by eapply lookup_lt_Some.
    + by subst e'.
  - destruct (Htr e') as (r' & ?); [| |done|by exists s', r, r'].
    + rewrite Hperm. left.
    + by subst e'.
  - exists s', r. eexists. split; [done|].
    unfold Estimate. rewrite Hks, Hx.
    rewrite (slot_length Sum64Str s s') by done. rewrite Hal.
    rewrite list_lookup_insert_eq by by eapply lookup_lt_Some.
    cbn [mbind option_bind]. subst r. split_and!; try done.
    by right.
  - destruct (Htr e') as (r' & ?); [| |done|by exists s', r, r'].
    + rewrite Hperm. apply list_elem_of_insert. by eapply lookup_lt_Some.
    + by subst e'.
Qed.

Section Mono.

Variable Sum64Str : Z → Z → string → Z.

Lemma Inserts_estimates ops : ∀ T s s' outs,
  wf s → qinv T s → positive ops → (T + total ops ≤ max_int)%Z →
  Inserts Sum64Str s ops = Some (s', outs) →
  ∀ y v v', count_of Sum64Str s y = Some v → count_of Sum64Str s' y = Some v' →
            (v ≤ v')%Z.
Proof.
  induction ops as [|[x c] ops IH]; intros T s s' outs Hwf Hq Hpos Hmax Hrun y v v' Hv Hv'.
  { simpl in Hrun. simplify_eq. lia. }
  apply Forall_cons in Hpos as [Hc Hpos]. cbn [snd] in Hc.
  pose proof (total_nonneg ops Hpos) as Htot.
  cbn [total foldr snd] in Hmax. fold (total ops) in Hmax.
  destruct (Insert_outcome Sum64Str s x c Hwf)
    as (s1 & r0 & HI & Hwf1 & Hn1 & Hl1 & Hout).
  rewrite Inserts_cons, HI in Hrun. cbn [mbind option_bind] in Hrun.
  destruct (Inserts Sum64Str s1 ops) as [[s2 es]|] eqn:Hrest; [|done].
  cbn [mbind option_bind] in Hrun. simplify_eq.
  pose proof (outcome_qinv Sum64Str T s x c s1 r0 Hq Hc ltac:(lia) Hn1 Hout) as Hq1.
  destruct (count_of_total Sum64Str s1 y Hwf1) as [v1 Hv1].
  etrans.
  - eapply (outcome_estimates Sum64Str T s x c s1 r0); eauto. lia.
  - eapply (IH (T + c)%Z s1 s' es); eauto. lia.
Qed.

Lemma total_app ops1 ops2 : total (ops1 ++ ops2) = (total ops1 + total ops2)%Z.
Proof. induction ops1 as [|op ops1 IH]; simpl; [done|]. rewrite IH. lia. Qed.

End Mono.

(** X7.  Estimates never go down.  From [New n] with [n ≥ 1], along a run of
    [Insert] calls with positive counts adding up to no more than the
    largest [int], the count that [Estimate] reports for a key, inserted
    or not, after a longer part of the run is at least the count it
    reports after a shorter part. *)
Theorem X7_Estimate_monotone Sum64Str n ops1 ops2 s0 s1 outs1 s2 outs2 y r1 r2 :
  (1 ≤ n ≤ max_int)%Z → New n = Some s0 →
  positive (ops1 ++ ops2) → (total (ops1 ++ ops2) ≤ max_int)%Z →
  Inserts Sum64Str s0 ops1 = Some (s1, outs1) →
  Inserts Sum64Str s1 ops2 = Some (s2, outs2) →
  Estimate Sum64Str s1 y = Some r1 → Estimate Sum64Str s2 y = Some r2 →
  (ECount r1 ≤ ECount r2)%Z.
Proof.
  intros Hn HNew Hpos Hmax Hrun1 Hrun2 HE1 HE2.
  apply Forall_app in Hpos as [Hpos1 Hpos2]. rewrite total_app in Hmax.
  pose proof (total_nonneg _ Hpos1). pose proof (total_nonneg _ Hpos2).
  destruct (New_wf n s0 Hn HNew) as (Hwf0 & Hq0 & _).
  destruct (Inserts_qinv Sum64Str ops1 0 s0 s1 outs1 Hwf0 Hq0 Hpos1 ltac:(lia) Hrun1)
    as [Hwf1 Hq1].
  apply (Inserts_estimates Sum64Str ops2 (0 + total ops1)%Z s1 s2 outs2
           Hwf1 Hq1 Hpos2 ltac:(lia) Hrun2 y); unfold count_of.
  - by rewrite HE1.
  - by rewrite HE2.
Qed.

(** * [Keys] on the runs from [New] *)

Lemma key_le_antisym a b : key_le a b → key_le b a → a = b.
Proof.
  intros [->|Hab] Hba; [done|]. apply key_le_iff in Hba. congruence.
Qed.

(** X8.  [Keys] and the monitored set.  From [New n] with [n ≥ 1] and after
    any run, [Keys] lists at most [n] elements, no key twice; a key is
    listed exactly when it is in the index; and each listed element is
    the one [Estimate] returns for its key. *)
Theorem X8_Keys_monitored Sum64Str n ops s0 s outs :
  (1 ≤ n ≤ max_int)%Z → New n = Some s0 →
  Inserts Sum64Str s0 ops = Some (s, outs) →
  (Z.of_nat (length (Keys s).2) ≤ n)%Z ∧
  NoDup (EKey <$> (Keys s).2) ∧
  (∀ x, is_Some (m (k s) !! x) ↔ x ∈ EKey <$> (Keys s).2) ∧
  (∀ r, r ∈ (Keys s).2 → Estimate Sum64Str s (EKey r) = Some r).
Proof.
  intros Hn HNew Hrun.
  destruct (New_run Sum64Str n ops s0 s outs Hn HNew Hrun)
    as [(Hwk & _ & Hcap & _) Hns].
  unfold Keys. cbn [snd].
  assert (EKey <$> (export <$> sort_Sort (elts (k s))) ≡ₚ Key <$> elts (k s)) as Hk.
  { rewrite <-list_fmap_compose. by rewrite sort_Sort_perm. }
  split_and!.
  - rewrite !length_fmap. rewrite sort_Sort_perm. lia.
  - rewrite Hk. by apply wf_keys_NoDup.
  - intros x. rewrite Hk, list_elem_of_fmap. split.
    + intros [i Hi]. apply Hwk in Hi as (e & He & <-).
      exists e. split; [done|]. by eapply list_elem_of_lookup_2.
    + intros (e & -> & [i Hi]%list_elem_of_lookup).
      exists i. apply Hwk. eauto.
  - intros r (e & -> & He)%list_elem_of_fmap. rewrite sort_Sort_perm in He.
    by destruct (Estimate_tracked Sum64Str s e Hwk He).
Qed.

(** X9.  The order of [Keys] is forced.  From [New n] with [n ≥ 1] and after
    any run, the monitored keys are distinct, so there is only one way to
    list the monitored entries by count descending and key ascending:
    every such listing is the result of [Keys], whichever sorting method
    produced it. *)
Theorem X9_Keys_order_unique Sum64Str n ops s0 s outs l :
  (1 ≤ n ≤ max_int)%Z → New n = Some s0 →
  Inserts Sum64Str s0 ops = Some (s, outs) →
  l ≡ₚ export <$> elts (k s) → StronglySorted by_count_desc l →
  l = (Keys s).2.
Proof.
  intros Hn HNew Hrun Hperm Hsorted.
  destruct (New_run Sum64Str n ops s0 s outs Hn HNew Hrun) as [(Hwk & _) _].
  assert ((Keys s).2 ≡ₚ export <$> elts (k s)) as HpK.
  { unfold Keys. cbn [snd]. by rewrite sort_Sort_perm. }
  assert (StronglySorted by_count_desc (Keys s).2) as HsK.
  { apply export_sorted, sort_Sort_sorted. }
  apply (StronglySorted_unique_strong by_count_desc); [|done|done|by rewrite HpK].
  intros r1 r2 H1 H2 [?|[Hc12 Hk12]] [?|[Hc21 Hk21]]; try lia.
  rewrite Hperm in H1. rewrite HpK in H2.
  apply list_elem_of_fmap in H1 as (e1 & -> & He1).
  apply list_elem_of_fmap in H2 as (e2 & -> & He2).
  f_equal. apply (wf_keys_elem_inj (k s)); [done..|].
  by apply key_le_antisym.
Qed.

(** * Exact counts while the capacity suffices *)

Section Exact.

Variable Sum64Str : Z → Z → string → Z.

Lemma elem_of_keyset s y :
  y ∈ keyset s ↔ ∃ e, e ∈ elts (k s) ∧ Key e = y.
Proof.
  unfold keyset. rewrite elem_of_list_to_set, list_elem_of_fmap. split.
  - intros (e & -> & He). eauto.
  - intros (e & He & <-). eauto.
Qed.

Lemma outcome_exact (K : gset string) s x c s' r :
  wf s → n s' = n s → outcome Sum64Str s x c s' r →
  keyset s = K →
  (∀ e, e ∈ elts (k s) → Error e = 0%Z) →
  (∀ a, a ∈ alphas s → a = 0%Z) →
  (Z.of_nat (size (K ∪ {[x]})) ≤ n s)%Z →
  keyset s' = K ∪ {[x]} ∧
  (∀ e, e ∈ elts (k s') → Error e = 0%Z) ∧
  (∀ a, a ∈ alphas s' → a = 0%Z).
Proof.
  intros (Hwk & _) Hn Hout HK Herr Hal0 Hsize.
  assert (m (k s) !! x = None → ¬ (Z.of_nat (length (elts (k s))) < n s)%Z → False)
    as Hfullx.
  { intros Hx Hnf.
    assert (x ∉ K) as HxK.
    { rewrite <-HK, elem_of_keyset. intros (e & He & Hk).
      by eapply (untracked_iff (k s) x). }
    assert (size K = length (elts (k s))) as HsK.
    { rewrite <-HK. unfold keyset.
      rewrite size_list_to_set by by apply wf_keys_NoDup.
      by rewrite length_fmap. }
    rewrite size_union in Hsize by set_solver.
    rewrite size_singleton in Hsize. lia. }
  destruct Hout as [idx e0 e' Hx Hidx Hk He' Hperm Hal Hr Hh
                   |e' Hx Hfree He' Hperm Hal Hr Hh
                   |a e0 Hx Hnf Ha H0 Hlt Hks Hal Hr
                   |a e0 a' e' Hx Hnf Ha H0 Hge Hal Ha' He' Hperm Hr Hh];
    [| |by destruct Hfullx..].
  - assert (e0 ∈ elts (k s)) as Hin0 by by eapply list_elem_of_lookup_2.
    assert (Key e' = x ∧ Error e' = Error e0) as [HKe HEe] by by subst e'.
    split_and!.
    + apply set_eq. intros y. rewrite elem_of_keyset, elem_of_union,
        elem_of_singleton, <-HK, elem_of_keyset. split.
      * intros (e & He & <-). rewrite Hperm in He.
        apply elem_of_insert_inv in He as [->|He]; [by right|left; eauto].
      * intros [(e & He & <-)| ->].
        -- destruct (decide (Key e = x)) as [Hex|Hex].
           ++ exists e'. split; [|congruence]. rewrite Hperm.
              apply list_elem_of_insert. by eapply lookup_lt_Some.
           ++ exists e. split; [|done]. rewrite Hperm.
              apply list_elem_of_lookup in He as [p Hp].
              eapply elem_of_insert_other; [done|]. intros ->. simplify_eq.
        -- exists e'. split; [|done]. rewrite Hperm.
           apply list_elem_of_insert. by eapply lookup_lt_Some.
    + intros e. rewrite Hperm. intros [->|He]%elem_of_insert_inv; [|by apply Herr].
      rewrite HEe. by apply Herr.
    + by rewrite Hal.
  - assert (Key e' = x ∧ Error e' = 0%Z) as [HKe HEe] by by subst e'.
    split_and!.
    + apply set_eq. intros y. rewrite elem_of_keyset, elem_of_union,
        elem_of_singleton, <-HK, elem_of_keyset. split.
      * intros (e & He & <-). rewrite Hperm in He.
        apply elem_of_cons in He as [->|He]; [by right|left; eauto].
      * intros [(e & He & <-)| ->].
        -- exists e. split; [|done]. rewrite Hperm. by right.
        -- exists e'. split; [|done]. rewrite Hperm. by left.
    + intros e. rewrite Hperm. intros [->|He]%elem_of_cons; [done|by apply Herr].
    + by rewrite Hal.
Qed.

Lemma Inserts_exact ops : ∀ (K : gset string) s s' outs,
  wf s → Inserts Sum64Str s ops = Some (s', outs) →
  keyset s = K →
  (∀ e, e ∈ elts (k s) → Error e = 0%Z) →
  (∀ a, a ∈ alphas s → a = 0%Z) →
  (Z.of_nat (size (K ∪ list_to_set (ops.*1))) ≤ n s)%Z →
  keyset s' = K ∪ list_to_set (ops.*1) ∧
  (∀ e, e ∈ elts (k s') → Error e = 0%Z) ∧
  (∀ a, a ∈ alphas s' → a = 0%Z).
Proof.
  induction ops as [|[x c] ops IH]; intros K s s' outs Hwf Hrun HK Herr Hal Hsize.
  { simpl in Hrun. simplify_eq. split_and!; [|done..]. simpl. set_solver. }
  destruct (Insert_outcome Sum64Str s x c Hwf)
    as (s1 & r0 & HI & Hwf1 & Hn1 & Hl1 & Hout).
  rewrite Inserts_cons, HI in Hrun. cbn [mbind option_bind] in Hrun.
  destruct (Inserts Sum64Str s1 ops) as [[s2 es]|] eqn:Hrest; [|done].
  cbn [mbind option_bind] in Hrun. simplify_eq.
  cbn [fmap list_fmap fst list_to_set] in Hsize |- *.
  change (list_fmap _ _ fst ops) with (ops.*1) in *.
  destruct (outcome_exact (keyset s) s x c s1 r0 Hwf Hn1 Hout eq_refl Herr Hal)
    as (HK1 & Herr1 & Hal1).
  { etrans; [|exact Hsize]. apply Nat2Z.inj_le, subseteq_size. set_solver. }
  destruct (IH (keyset s ∪ {[x]}) s1 s' es Hwf1 Hrest HK1 Herr1 Hal1)
    as (HK' & Herr' & Hal').
  { rewrite Hn1. etrans; [|exact Hsize].
    apply Nat2Z.inj_le, subseteq_size. set_solver. }
  split_and!; [|done..]. rewrite HK'. set_solver.
Qed.

Lemma occurrences_notin y ops : y ∉ ops.*1 → occurrences y ops = 0%Z.
Proof.
  induction ops as [|[x c] ops IH]; [done|].
  cbn [fmap list_fmap fst]. rewrite not_elem_of_cons. intros [Hne Hnin].
  rewrite occurrences_cons, decide_False by done. by apply IH.
Qed.

End Exact.

(** X10.  Exact counts.  From [New n] with [n ≥ 1], on a run of [Insert] calls
    with positive counts adding up to no more than the largest [int] that
    uses at most [n] distinct keys, nothing is ever evicted or filtered:
    afterwards [Estimate] answers for every key with exactly the sum of
    the counts inserted for it, and error 0. *)
Theorem X10_exact_when_room Sum64Str n ops s0 s outs x :
  (1 ≤ n ≤ max_int)%Z → New n = Some s0 →
  positive ops → (total ops ≤ max_int)%Z →
  Inserts Sum64Str s0 ops = Some (s, outs) →
  (Z.of_nat (distinct_keys ops) ≤ n)%Z →
  Estimate Sum64Str s x =
    Some {| EKey := x; ECount := occurrences x ops; EError := 0 |}.
Proof.
  intros Hn HNew Hpos Hmax Hrun Hdist.
  destruct (New_run Sum64Str n ops s0 s outs Hn HNew Hrun) as [Hwf _].
  destruct (New_sound Sum64Str n ops s0 s outs Hn HNew Hpos Hmax Hrun)
    as (H1 & H2 & _).
  destruct (New_wf n s0 Hn HNew) as (Hwf0 & Hq0 & Hn0).
  apply New_inv in HNew as (_ & _ & Hs0).
  destruct (Inserts_exact Sum64Str ops ∅ s0 s outs Hwf0 Hrun)
    as (HK & Herr & Hal).
  { by subst s0. }
  { subst s0. by intros e ?%elem_of_nil. }
  { subst s0. by intros a [-> _]%elem_of_replicate. }
  { rewrite Hn0, union_empty_l_L. exact Hdist. }
  rewrite union_empty_l_L in HK.
  destruct Hwf as (Hwk & _ & _ & Hlen).
  destruct (tracked_or_not (k s) x Hwk) as [(e & He & <-)|Hno].
  - destruct (Estimate_tracked Sum64Str s e Hwk He) as [-> _].
    unfold export. f_equal. rewrite (Herr e He). f_equal.
    specialize (H2 e He). rewrite (Herr e He) in H2.
    specialize (H1 (Key e) (Count e) (count_of_tracked Sum64Str s e Hwk He)). lia.
  - assert (x ∉ ops.*1) as Hnin.
    { intros Hin. apply (elem_of_list_to_set (C:=gset string)) in Hin.
      rewrite <-HK in Hin. apply elem_of_keyset in Hin as (e & He & Hk).
      by apply (Hno e). }
    rewrite (occurrences_notin x ops Hnin).
    apply untracked_iff in Hno; [|done]. unfold Estimate. rewrite Hno.
    destruct (lookup_lt_is_Some_2 (alphas s) _ (slot_lt Sum64Str s x Hlen))
      as [a Ha].
    rewrite Ha. cbn [mbind option_bind].
    by rewrite (Hal a (list_elem_of_lookup_2 _ _ _ Ha)).
Qed.

(** * Keys that are not monitored *)

Lemma occurrences_nonneg y ops : positive ops → (0 ≤ occurrences y ops)%Z.
Proof.
  induction ops as [|[x c] ops IH]; [done|].
  intros [Hc Hpos]%Forall_cons. cbn [snd] in Hc. specialize (IH Hpos).
  rewrite occurrences_cons. case_decide; lia.
Qed.

(** X11.  No heavy key is missed.  From [New n] with [n ≥ 1], after a run of
    [Insert] calls with positive counts adding up to no more than the
    largest [int], a key that is not monitored has a true count no larger
    than the count of any monitored entry: every key inserted for more
    than the smallest monitored count is monitored.  While fewer than [n]
    keys are monitored, a key that is not monitored was never inserted. *)
Theorem X11_unmonitored_bound Sum64Str n ops s0 s outs y :
  (1 ≤ n ≤ max_int)%Z → New n = Some s0 →
  positive ops → (total ops ≤ max_int)%Z →
  Inserts Sum64Str s0 ops = Some (s, outs) →
  m (k s) !! y = None →
  (∀ e, e ∈ elts (k s) → (occurrences y ops ≤ Count e)%Z) ∧
  ((Z.of_nat (length (elts (k s))) < n)%Z → occurrences y ops = 0%Z).
Proof.
  intros Hn HNew Hpos Hmax Hrun Hy.
  destruct (New_run Sum64Str n ops s0 s outs Hn HNew Hrun) as [Hwf Hns].
  destruct (New_sound Sum64Str n ops s0 s outs Hn HNew Hpos Hmax Hrun)
    as (Hsound & _).
  destruct (New_wf n s0 Hn HNew) as (Hwf0 & Hq0 & _).
  destruct (Inserts_qinv Sum64Str ops 0 s0 s outs Hwf0 Hq0 Hpos ltac:(lia) Hrun)
    as [_ (_ & _ & Hent & _ & Hzero & Hfull)].
  pose proof (occurrences_nonneg y ops Hpos) as Hocc.
  destruct Hwf as (_ & _ & _ & Hal).
  destruct (lookup_lt_is_Some_2 (alphas s) (slot Sum64Str s y)) as [a Ha];
    [by apply slot_lt|].
  assert (occurrences y ops ≤ a)%Z as Hle.
  { apply Hsound. unfold count_of, Estimate. by rewrite Hy, Ha. }
  apply list_elem_of_lookup_2 in Ha. rewrite Hns in Hzero, Hfull.
  destruct (decide (Z.of_nat (length (elts (k s))) < n)%Z) as [Hlt|Hge].
  - specialize (Hzero Hlt a Ha). split; [|lia].
    intros e He. destruct (Hent e He). lia.
  - split; [|done]. intros e He. specialize (Hfull Hge a e Ha He). lia.
Qed.

(** * [keys.Pop] *)

(** X12.  [Push] then [Pop].  Pushing an entry whose key is not in the index
    and popping again gives back the pushed entry and the monitored set
    as it was. *)
Theorem X12_Pop_Push tk e :
  m tk !! Key e = None → Pop (Push tk e) = Some (tk, e).
Proof.
  intros Hfresh. unfold Pop, Push. cbn [elts m].
  rewrite length_app. cbn [length].
  rewrite decide_False by lia.
  replace (length (elts tk) + 1 - 1) with (length (elts tk)) by lia.
  rewrite list_lookup_middle by done. cbn [mbind option_bind].
  rewrite take_app_length, delete_insert_id by done. by destruct tk.
Qed.

(** X13.  [Pop] takes the last entry.  [Pop] panics exactly on an empty slice.
    Otherwise it returns the last entry of the slice and removes it; when
    the index agreed with the slice before, it does so afterwards and no
    longer holds the key of the removed entry. *)
Theorem X13_Pop_last tk :
  (Pop tk = None ↔ elts tk = []) ∧
  ∀ tk' e, Pop tk = Some (tk', e) →
    elts tk = elts tk' ++ [e] ∧
    m tk' = delete (Key e) (m tk) ∧
    (wf_keys tk → wf_keys tk' ∧ m tk' !! Key e = None).
Proof.
  unfold Pop. split.
  - case_decide as Hlen.
    + split; [|done]. intros _. by apply nil_length_inv.
    + destruct (lookup_lt_is_Some_2 (elts tk) (length (elts tk) - 1)) as [e He];
        [lia|].
      rewrite He. cbn [mbind option_bind]. split; [done|].
      intros Hnil. by rewrite Hnil in Hlen.
  - intros tk' e. case_decide as Hlen; [done|].
    destruct (elts tk !! (length (elts tk) - 1)) as [e1|] eqn:He; [|done].
    cbn [mbind option_bind]. intros [= <- <-]. cbn [elts m].
    assert (elts tk = take (length (elts tk) - 1) (elts tk) ++ [e1]) as Hsplit.
    { rewrite <-(take_drop (length (elts tk) - 1) (elts tk)) at 1. f_equal.
      rewrite (drop_S _ e1) by done.
      rewrite drop_ge by lia. done. }
    split_and!; [done..|].
    intros Hwf. split; [|by rewrite lookup_delete_eq].
    intros key p. cbn [elts m]. split.
    + intros Hm. apply lookup_delete_Some in Hm as [Hne Hm].
      apply Hwf in Hm as (e & Hp & Hk). exists e. split; [|done].
      rewrite Hsplit in Hp.
      apply lookup_app_Some in Hp as [Hp|[Hge Hp]]; [done|].
      apply list_lookup_singleton_Some in Hp as [_ ->]. congruence.
    + intros (e & Hp & Hk). apply lookup_delete_Some.
      apply lookup_lt_Some in Hp as Hlt. rewrite length_take in Hlt.
      assert (elts tk !! p = Some e) as Hp'.
      { rewrite Hsplit. by apply lookup_app_l_Some. }
      split; [|apply Hwf; eauto].
      intros Heq. assert (p = length (elts tk) - 1); [|lia].
      eapply (wf_keys_inj tk); eauto. congruence.
Qed.

(** * The msgp encoding *)

Lemma emit_nil w : emit [] w = Some w.
Proof.
  unfold emit. cbn [length]. rewrite decide_True by lia.
  destruct w as [o r]. cbn [out room]. by rewrite app_nil_r, Nat.sub_0_r.
Qed.

Lemma write_emit t w : write t w = emit [t] w.
Proof.
  unfold write, emit. cbn [length]. destruct (room w) as [|r].
  - by rewrite decide_False by lia.
  - rewrite decide_True by lia. do 2 f_equal. lia.
Qed.

Lemma emit_app t1 t2 w : emit t1 w ≫= emit t2 = emit (t1 ++ t2) w.
Proof.
  unfold emit. rewrite length_app.
  destruct (decide (length t1 ≤ room w)) as [H1|H1]; cbn [mbind option_bind].
  - cbn [out room].
    destruct (decide (length t2 ≤ room w - length t1)) as [H2|H2];
      destruct (decide (length t1 + length t2 ≤ room w)) as [H3|H3];
      try lia; [|done].
    rewrite <-(assoc_L (++)). do 2 f_equal. lia.
  - destruct (decide (length t1 + length t2 ≤ room w)); [lia|done].
Qed.

Ltac emit_step :=
  rewrite ?write_emit; rewrite <-emit_app;
  match goal with
  | |- context [emit ?t ?w ≫= _] =>
      destruct (emit t w); cbn [mbind option_bind]; [|done]
  end.

Lemma write_ints_emit l w : write_ints l w = emit (ints_tokens l) w.
Proof.
  revert w. induction l as [|a l IH]; intros w; [by rewrite emit_nil|].
  cbn [write_ints]. unfold WriteInt.
  change (ints_tokens (a :: l)) with ([TInt a] ++ ints_tokens l).
  emit_step. apply IH.
Qed.

Lemma write_pairs_emit ps w : write_pairs ps w = emit (pairs_tokens ps) w.
Proof.
  revert w. induction ps as [|[key v] ps IH]; intros w; [by rewrite emit_nil|].
  cbn [write_pairs]. unfold WriteString, WriteInt.
  change (pairs_tokens ((key, v) :: ps))
    with ([TString key] ++ [TInt (Z.of_nat v)] ++ pairs_tokens ps).
  do 2 emit_step. apply IH.
Qed.

Lemma write_elts_emit es w : write_elts es w = emit (elts_tokens es) w.
Proof.
  revert w. induction es as [|e es IH]; intros w; [by rewrite emit_nil|].
  cbn [write_elts]. unfold WriteString, WriteInt.
  change (elts_tokens (e :: es))
    with ([TString (Key e)] ++ [TInt (Count e)] ++ [TInt (Error e)] ++
          elts_tokens es).
  do 3 emit_step. apply IH.
Qed.

Lemma EncodeMsgp_emit range_order s w :
  EncodeMsgp range_order s w = emit (layout s (range_order (m (k s)))) w.
Proof.
  unfold EncodeMsgp, keys_EncodeMsgp, layout,
    WriteInt, WriteArrayHeader, WriteMapHeader.
  change ([TInt (n s); TArrayHeader (uint32 (Z.of_nat (length (alphas s))))])
    with ([TInt (n s)] ++
          [TArrayHeader (uint32 (Z.of_nat (length (alphas s))))]).
  rewrite <-!(assoc_L (++)).
  do 2 emit_step. rewrite write_ints_emit. emit_step. emit_step.
  rewrite write_pairs_emit. emit_step. emit_step.
  apply write_elts_emit.
Qed.

Lemma length_pairs_tokens ps : length (pairs_tokens ps) = 2 * length ps.
Proof.
  induction ps as [|[key v] ps IH]; [done|].
  change (pairs_tokens ((key, v) :: ps))
    with ([TString key; TInt (Z.of_nat v)] ++ pairs_tokens ps).
  rewrite length_app, IH. simpl. lia.
Qed.

Lemma length_elts_tokens es : length (elts_tokens es) = 3 * length es.
Proof.
  induction es as [|e es IH]; [done|].
  change (elts_tokens (e :: es))
    with ([TString (Key e); TInt (Count e); TInt (Error e)] ++ elts_tokens es).
  rewrite length_app, IH. simpl. lia.
Qed.

Lemma length_layout s ps :
  length ps = size (m (k s)) → length (layout s ps) = encoded_size s.
Proof.
  intros Hps. unfold layout, encoded_size, ints_tokens.
  rewrite !length_app, length_fmap, length_pairs_tokens, length_elts_tokens, Hps.
  simpl. lia.
Qed.

(** ** Reading back *)

Lemma read_ints_layout l rest :
  read_ints (length l) (ints_tokens l ++ rest) = Some (l, rest).
Proof.
  induction l as [|a l IH]; [done|].
  cbn [length read_ints ints_tokens fmap list_fmap app ReadInt mbind option_bind].
  unfold ints_tokens in IH. by rewrite IH.
Qed.

Lemma read_elts_layout es rest :
  read_elts (length es) (elts_tokens es ++ rest) = Some (es, rest).
Proof.
  induction es as [|e es IH]; [done|].
  change (elts_tokens (e :: es) ++ rest)
    with (TString (Key e) :: TInt (Count e) :: TInt (Error e) ::
          (elts_tokens es ++ rest)).
  cbn [length read_elts ReadString ReadInt mbind option_bind].
  rewrite IH. cbn [mbind option_bind]. by destruct e.
Qed.

Lemma read_pairs_layout ps : ∀ mp rest,
  read_pairs (length ps) mp (pairs_tokens ps ++ rest) =
    Some (foldl (λ acc p, <[p.1 := Z.of_nat p.2]> acc) mp ps, rest).
Proof.
  induction ps as [|[key v] ps IH]; intros mp rest; [done|].
  change (pairs_tokens ((key, v) :: ps) ++ rest)
    with (TString key :: TInt (Z.of_nat v) :: (pairs_tokens ps ++ rest)).
  cbn [length read_pairs ReadString ReadInt mbind option_bind].
  by rewrite IH.
Qed.

Lemma foldl_insert_lookup (ps : list (string * nat)) : ∀ (mp : gmap string Z) key,
  NoDup (ps.*1) →
  (∀ v, (key, v) ∈ ps →
     foldl (λ acc p, <[p.1 := Z.of_nat p.2]> acc) mp ps !! key =
       Some (Z.of_nat v)) ∧
  (key ∉ ps.*1 →
     foldl (λ acc p, <[p.1 := Z.of_nat p.2]> acc) mp ps !! key = mp !! key).
Proof.
  induction ps as [|[k0 v0] ps IH]; intros mp key Hnd.
  { split; [by intros v ?%elem_of_nil|done]. }
  cbn [fmap list_fmap fst] in Hnd. apply NoDup_cons in Hnd as [Hk0 Hnd].
  cbn [foldl fst snd].
  destruct (IH (<[k0 := Z.of_nat v0]> mp) key Hnd) as [IH1 IH2].
  split.
  - intros v [Heq|Hin]%elem_of_cons.
    + simplify_eq. rewrite IH2 by done. by rewrite lookup_insert_eq.
    + by apply IH1.
  - cbn [fmap list_fmap fst]. rewrite not_elem_of_cons. intros [Hne Hnin].
    rewrite IH2 by done. by rewrite lookup_insert_ne.
Qed.

Lemma foldl_insert_map (ps : list (string * nat)) (m0 : gmap string nat) :
  ps ≡ₚ map_to_list m0 →
  foldl (λ acc p, <[p.1 := Z.of_nat p.2]> acc) (∅ : gmap string Z) ps =
    Z.of_nat <$> m0.
Proof.
  intros Hperm.
  assert (NoDup (ps.*1)) as Hnd.
  { rewrite Hperm. apply NoDup_fst_map_to_list. }
  apply map_eq. intros key. rewrite lookup_fmap.
  destruct (foldl_insert_lookup ps ∅ key Hnd) as [H1 H2].
  destruct (m0 !! key) as [v|] eqn:Hkey; cbn [fmap option_fmap option_map].
  - apply H1. rewrite Hperm. by apply elem_of_map_to_list.
  - rewrite H2; [done|]. intros ((k1 & v) & Hk & Hin)%list_elem_of_fmap.
    cbn [fst] in Hk. subst k1. rewrite Hperm in Hin.
    apply elem_of_map_to_list in Hin. congruence.
Qed.

Lemma header_id len :
  (Z.of_nat len < 2 ^ 32)%Z → Z.to_nat (uint32 (Z.of_nat len)) = len.
Proof. intros. unfold uint32. rewrite Z.mod_small by lia. lia. Qed.

Lemma DecodeMsgp_layout s ps rest :
  ps ≡ₚ map_to_list (m (k s)) →
  (Z.of_nat (length (alphas s)) < 2 ^ 32)%Z →
  (Z.of_nat (size (m (k s))) < 2 ^ 32)%Z →
  (Z.of_nat (length (elts (k s))) < 2 ^ 32)%Z →
  DecodeMsgp (layout s ps ++ rest) = Some (fields s, rest).
Proof.
  intros Hperm Ha Hm He.
  assert (length ps = size (m (k s))) as Hlen.
  { by rewrite Hperm, length_map_to_list. }
  unfold DecodeMsgp, layout.
  cbn [app ReadInt ReadArrayHeader mbind option_bind].
  rewrite header_id by done. rewrite <-!(assoc_L (++)).
  rewrite read_ints_layout. cbn [mbind option_bind].
  unfold keys_DecodeMsp. cbn [app ReadMapHeader mbind option_bind].
  rewrite header_id by done.
  rewrite <-Hlen, <-(assoc_L (++)), read_pairs_layout.
  cbn [app ReadArrayHeader mbind option_bind].
  rewrite header_id by done. rewrite read_elts_layout.
  cbn [mbind option_bind]. by rewrite (foldl_insert_map ps (m (k s))).
Qed.

Lemma fields_inj s1 s2 : fields s1 = fields s2 → s1 = s2.
Proof.
  destruct s1 as [n1 [m1 e1] a1], s2 as [n2 [m2 e2] a2]. unfold fields.
  cbn [n k m elts alphas]. intros [= -> Hm -> ->]. do 2 f_equal.
  apply map_eq. intros key.
  assert ((Z.of_nat <$> m1) !! key = (Z.of_nat <$> m2) !! key) as Hk
    by by rewrite Hm.
  rewrite !lookup_fmap in Hk.
  destruct (m1 !! key), (m2 !! key); simplify_eq/=; done.
Qed.

Lemma Encode_layout range_order s sink :
  Encode range_order s sink =
    if decide (length (layout s (range_order (m (k s)))) ≤ sink)
    then Some (layout s (range_order (m (k s)))) else None.
Proof.
  unfold Encode. rewrite EncodeMsgp_emit. unfold emit. cbn [room out].
  by case_decide.
Qed.

(** ** Readers depend only on what they consume *)

Lemma framed_ext {A} (f g : list token → option (A * list token)) :
  (∀ r, f r = g r) → framed f → framed g.
Proof.
  intros Hfg Hf r a r' Hg. rewrite <-Hfg in Hg.
  destruct (Hf r a r' Hg) as (used & -> & Hused).
  exists used. split; [done|]. intros tail. by rewrite <-Hfg.
Qed.

Lemma framed_retp {A} (a : A) : framed (retp a).
Proof.
  intros r a' r' [= <- <-]. exists []. split; [done|]. by intros tail.
Qed.

Lemma framed_bindp {A B} (f : list token → option (A * list token))
    (g : A → list token → option (B * list token)) :
  framed f → (∀ a, framed (g a)) → framed (bindp f g).
Proof.
  intros Hf Hg r b r' Hb. unfold bindp in Hb.
  destruct (f r) as [[a r1]|] eqn:Hfr; [|done]. cbn [mbind option_bind] in Hb.
  destruct (Hf r a r1 Hfr) as (u1 & -> & Hu1).
  destruct (Hg a r1 b r' Hb) as (u2 & -> & Hu2).
  exists (u1 ++ u2). split; [by rewrite (assoc_L (++))|].
  intros tail. unfold bindp. rewrite <-(assoc_L (++)), Hu1.
  cbn [mbind option_bind]. apply Hu2.
Qed.

Lemma framed_ReadInt : framed ReadInt.
Proof.
  intros [|[] r] a r' Hr; simplify_eq/=. by exists [TInt a].
Qed.

Lemma framed_ReadString : framed ReadString.
Proof.
  intros [|[] r] a r' Hr; simplify_eq/=. by exists [TString a].
Qed.

Lemma framed_ReadMapHeader : framed ReadMapHeader.
Proof.
  intros [|[] r] a r' Hr; simplify_eq/=. by exists [TMapHeader a].
Qed.

Lemma framed_ReadArrayHeader : framed ReadArrayHeader.
Proof.
  intros [|[] r] a r' Hr; simplify_eq/=. by exists [TArrayHeader a].
Qed.

Lemma framed_read_ints cnt : framed (read_ints cnt).
Proof.
  induction cnt as [|cnt IH]; [apply (framed_retp [])|].
  apply (framed_ext
    (bindp ReadInt (λ a, bindp (read_ints cnt) (λ l, retp (a :: l)))));
    [done|].
  apply framed_bindp; [apply framed_ReadInt|]. intros a.
  apply framed_bindp; [apply IH|]. intros l. apply framed_retp.
Qed.

Lemma framed_read_pairs cnt : ∀ mp, framed (read_pairs cnt mp).
Proof.
  induction cnt as [|cnt IH]; intros mp; [apply (framed_retp mp)|].
  apply (framed_ext
    (bindp ReadString (λ key,
       bindp ReadInt (λ val, read_pairs cnt (<[key := val]> mp)))));
    [done|].
  apply framed_bindp; [apply framed_ReadString|]. intros key.
  apply framed_bindp; [apply framed_ReadInt|]. intros val. apply IH.
Qed.

Lemma framed_read_elts cnt : framed (read_elts cnt).
Proof.
  induction cnt as [|cnt IH]; [apply (framed_retp [])|].
  apply (framed_ext
    (bindp ReadString (λ key, bindp ReadInt (λ cn, bindp ReadInt (λ er,
       bindp (read_elts cnt) (λ es,
         retp ({| Key := key; Count := cn; Error := er |} :: es)))))));
    [done|].
  apply framed_bindp; [apply framed_ReadString|]. intros key.
  apply framed_bindp; [apply framed_ReadInt|]. intros cn.
  apply framed_bindp; [apply framed_ReadInt|]. intros er.
  apply framed_bindp; [apply IH|]. intros es. apply framed_retp.
Qed.

Lemma framed_keys_DecodeMsp : framed keys_DecodeMsp.
Proof.
  apply (framed_ext
    (bindp ReadMapHeader (λ sz, bindp (read_pairs (Z.to_nat sz) ∅) (λ mp,
       bindp ReadArrayHeader (λ sz', bindp (read_elts (Z.to_nat sz')) (λ es,
         retp {| rm := mp; relts := es |}))))));
    [done|].
  apply framed_bindp; [apply framed_ReadMapHeader|]. intros sz.
  apply framed_bindp; [apply framed_read_pairs|]. intros mp.
  apply framed_bindp; [apply framed_ReadArrayHeader|]. intros sz'.
  apply framed_bindp; [apply framed_read_elts|]. intros es. apply framed_retp.
Qed.

Lemma framed_DecodeMsgp : framed DecodeMsgp.
Proof.
  apply (framed_ext
    (bindp ReadInt (λ nv, bindp ReadArrayHeader (λ sz,
       bindp (read_ints (Z.to_nat sz)) (λ al, bindp keys_DecodeMsp (λ tk,
         retp {| rn := nv; rk := tk; ralphas := al |}))))));
    [done|].
  apply framed_bindp; [apply framed_ReadInt|]. intros nv.
  apply framed_bindp; [apply framed_ReadArrayHeader|]. intros sz.
  apply framed_bindp; [apply framed_read_ints|]. intros al.
  apply framed_bindp; [apply framed_keys_DecodeMsp|]. intros tk.
  apply framed_retp.
Qed.

Lemma framed_prefix {A} (f : list token → option (A * list token)) p q a :
  framed f → f (p ++ q) = Some (a, []) → q ≠ [] → f p = None.
Proof.
  intros Hf Hall Hq. destruct (f p) as [[a' r']|] eqn:Hp; [|done].
  destruct (Hf p a' r' Hp) as (used & -> & Hused).
  rewrite <-(assoc_L (++)), Hused in Hall.
  injection Hall as _ Hnil. by apply app_eq_nil in Hnil as [_ ->].
Qed.

(** X14.  Encoding an estimator and decoding what the sink received gives back
    its fields, whatever order the map was visited in and whatever follows
    in the source; nothing of the state is checked on the way, so this
    holds of every value of the type.  The lengths must fit the 32-bit
    headers and the sink must take every object. *)
Theorem X14_Encode_Decode range_order s sink rest :
  (∀ mp, range_order mp ≡ₚ map_to_list mp) →
  (Z.of_nat (length (alphas s)) < 2 ^ 32)%Z →
  (Z.of_nat (size (m (k s))) < 2 ^ 32)%Z →
  (Z.of_nat (length (elts (k s))) < 2 ^ 32)%Z →
  encoded_size s ≤ sink →
  ∃ toks, Encode range_order s sink = Some toks ∧
    length toks = encoded_size s ∧
    DecodeMsgp (toks ++ rest) = Some (fields s, rest) ∧
    Decode toks = Some (fields s) ∧
    ∀ s', fields s' = fields s → s' = s.
Proof.
  intros Hperm Ha Hm He Hroom.
  assert (length (layout s (range_order (m (k s)))) = encoded_size s) as Hlen.
  { apply length_layout. by rewrite Hperm, length_map_to_list. }
  exists (layout s (range_order (m (k s)))). split_and!.
  - rewrite Encode_layout. by rewrite decide_True by lia.
  - done.
  - by apply DecodeMsgp_layout.
  - unfold Decode.
    rewrite <-(app_nil_r (layout _ _)), DecodeMsgp_layout by done. done.
  - intros s'. apply fields_inj.
Qed.

(** X15.  [Encode] succeeds exactly when the sink takes every object of the
    encoding: it never reports success after a refused write. *)
Theorem X15_Encode_fails_iff range_order s sink :
  (∀ mp, range_order mp ≡ₚ map_to_list mp) →
  (Encode range_order s sink = None ↔ sink < encoded_size s) ∧
  (∀ toks, Encode range_order s sink = Some toks →
     length toks = encoded_size s).
Proof.
  intros Hperm.
  assert (length (layout s (range_order (m (k s)))) = encoded_size s) as Hlen.
  { apply length_layout. by rewrite Hperm, length_map_to_list. }
  rewrite Encode_layout, Hlen. case_decide; split.
  - split; [done|lia].
  - by intros toks [= <-].
  - split; [lia|done].
  - done.
Qed.

(** X16.  A truncated encoding is refused: decoding any proper prefix of what
    [Encode] wrote fails. *)
Theorem X16_Decode_truncated range_order s sink toks p q :
  (∀ mp, range_order mp ≡ₚ map_to_list mp) →
  (Z.of_nat (length (alphas s)) < 2 ^ 32)%Z →
  (Z.of_nat (size (m (k s))) < 2 ^ 32)%Z →
  (Z.of_nat (length (elts (k s))) < 2 ^ 32)%Z →
  Encode range_order s sink = Some toks →
  toks = p ++ q → q ≠ [] →
  Decode p = None.
Proof.
  intros Hperm Ha Hm He Henc -> Hq.
  rewrite Encode_layout in Henc. case_decide; [|done].
  injection Henc as Henc.
  pose proof (DecodeMsgp_layout s _ [] (Hperm _) Ha Hm He) as Hdec.
  rewrite app_nil_r, Henc in Hdec.
  unfold Decode. by rewrite (framed_prefix DecodeMsgp p q _ framed_DecodeMsgp Hdec Hq).
Qed.

(** * The claims on concrete runs, hashed with SipHash-1-3 *)

Lemma tracking_a_run :
  New 1 = Some empty1 ∧
  Inserts sip13.Sum64Str empty1 [("a", 5%Z)] =
    Some (tracking_a, [ {| EKey := "a"; ECount := 5; EError := 0 |} ]).
Proof. split; vm_compute; reflexivity. Qed.

Lemma C1_filtered_insert_witness :
  ∃ s',
    Insert sip13.Sum64Str tracking_a "b" 3 =
      Some (s', {| EKey := "b"; ECount := int_wrap (0 + 3); EError := 0 |}) ∧
    k s' = k tracking_a ∧ m (k s') !! "b" = None ∧ n s' = n tracking_a ∧
    alphas s' = <[slot sip13.Sum64Str tracking_a "b" := int_wrap (0 + 3)]>
                  (alphas tracking_a) ∧
    alphas s' !! slot sip13.Sum64Str tracking_a "b" = Some (int_wrap (0 + 3)).
Proof.
  apply (C1_filtered_insert sip13.Sum64Str tracking_a "b" 3 0 5).
  - reflexivity.
  - vm_compute; reflexivity.
  - apply heap_ok_singleton.
  - vm_compute; reflexivity.
  - eexists. split; [apply list_elem_of_here|reflexivity].
  - intros e ->%list_elem_of_singleton. simpl. lia.
  - vm_compute; reflexivity.
Defined.

Lemma C2_eviction_overwrites_witness :
  ∃ s' r,
    Insert sip13.Sum64Str tracking_a_filtered_d "b" 10 = Some (s', r) ∧
    alphas s' = <[slot sip13.Sum64Str tracking_a_filtered_d "a" := 5%Z]>
                  (alphas tracking_a_filtered_d) ∧
    (1 ≤ 5)%Z ∧
    alphas s' !! slot sip13.Sum64Str tracking_a_filtered_d "a" =
      Some (Z.max 1 5).
Proof.
  apply (C2_eviction_overwrites sip13.Sum64Str 1 [("a", 5%Z); ("d", 1%Z)]
           empty1 tracking_a_filtered_d
           [ {| EKey := "a"; ECount := 5; EError := 0 |};
             {| EKey := "d"; ECount := 1; EError := 0 |} ]
           "b" 10 0 {| Key := "a"; Count := 5; Error := 0 |} 1).
  - unfold max_int. lia.
  - vm_compute; reflexivity.
  - repeat constructor.
  - vm_compute; reflexivity.
  - lia.
  - vm_compute. intros H. discriminate H.
  - vm_compute; reflexivity.
  - reflexivity.
  - vm_compute; reflexivity.
  - reflexivity.
  - vm_compute. intros H. discriminate H.
  - vm_compute; reflexivity.
Defined.

(** C2 fails as stated, with positive counts: on [New(1)],
    [Insert("a", 2^63-1)] and [Insert("a", 1)] wrap the count of ["a"]
    round to [-2^63] while its cell holds [0]; [Insert("b", 1)] then
    evicts ["a"] and the cell drops to [-2^63], which is not the maximum
    of [0] and [-2^63]. *)
Lemma C2_counterexample :
  ∃ s outs e0 s' r,
    Inserts sip13.Sum64Str empty1 [("a", max_int); ("a", 1%Z)] =
      Some (s, outs) ∧
    positive [("a", max_int); ("a", 1%Z); ("b", 1%Z)] ∧
    m (k s) !! "b" = None ∧ Z.of_nat (length (elts (k s))) = n s ∧
    elts (k s) !! 0 = Some e0 ∧
    e0 = {| Key := "a"; Count := min_int; Error := 0 |} ∧
    alphas s !! slot sip13.Sum64Str s (Key e0) = Some 0%Z ∧
    Insert sip13.Sum64Str s "b" 1 = Some (s', r) ∧
    alphas s' !! slot sip13.Sum64Str s (Key e0) = Some min_int ∧
    Z.max 0 min_int = 0%Z ∧ (min_int < 0)%Z.
Proof.
  eexists _, _, _, _, _.
  split; [vm_compute; reflexivity|].
  split; [repeat constructor|].
  split; [vm_compute; reflexivity|].
  split; [vm_compute; reflexivity|].
  split; [vm_compute; reflexivity|].
  split; [vm_compute; reflexivity|].
  split; [vm_compute; reflexivity|].
  split; [vm_compute; reflexivity|].
  split; [vm_compute; reflexivity|].
  split; vm_compute; reflexivity.
Qed.

Lemma C3_cells_monotone_witness :
  ∃ s' r,
    Insert sip13.Sum64Str tracking_a "b" 3 = Some (s', r) ∧
    length (alphas s') = length (alphas tracking_a) ∧
    ∀ i a a', alphas tracking_a !! i = Some a → alphas s' !! i = Some a' →
              (a ≤ a')%Z.
Proof.
  apply (C3_cells_monotone sip13.Sum64Str 1 [("a", 5%Z)] empty1 tracking_a
           [ {| EKey := "a"; ECount := 5; EError := 0 |} ] "b" 3).
  - unfold max_int. lia.
  - vm_compute; reflexivity.
  - repeat constructor.
  - vm_compute; reflexivity.
  - lia.
  - vm_compute. intros H. discriminate H.
Defined.

(** C3 fails as stated: on [New(1)], after [Insert("a", 2^63-1)] and
    [Insert("b", 2^63-2)] the cell of ["b"] holds [2^63-2]; the call
    [Insert("b", 2)] overflows the sum and leaves [-2^63] in that cell.
    All three counts are positive. *)
Lemma C3_counterexample :
  ∃ s outs s' r,
    Inserts sip13.Sum64Str empty1 [("a", max_int); ("b", (max_int - 1)%Z)] =
      Some (s, outs) ∧
    Insert sip13.Sum64Str s "b" 2 = Some (s', r) ∧
    alphas s !! 0 = Some (max_int - 1)%Z ∧
    alphas s' !! 0 = Some min_int ∧
    (min_int < max_int - 1)%Z.
Proof.
  eexists _, _, _, _.
  split; [vm_compute; reflexivity|].
  split; [vm_compute; reflexivity|].
  split; [vm_compute; reflexivity|].
  split; [vm_compute; reflexivity|vm_compute; reflexivity].
Qed.

Lemma C4_replacement_entry_witness :
  ∃ s',
    Insert sip13.Sum64Str tracking_a "d" 7 =
      Some (s', {| EKey := "d"; ECount := 12; EError := 5 |}) ∧
    {| Key := "d"; Count := 12; Error := 5 |} ∈ elts (k s').
Proof.
  exact (C4_replacement_entry sip13.Sum64Str tracking_a "d" 7 0
           {| Key := "a"; Count := 5; Error := 0 |}
           ltac:(vm_compute; reflexivity) ltac:(reflexivity)
           ltac:(vm_compute; reflexivity) ltac:(reflexivity)
           ltac:(vm_compute; intros H; discriminate H)).
Defined.

(** C4 fails as stated: on [New(1)] after [Insert("a",1)], the key ["d"]
    shares the cell of ["a"], which holds [0] when [Insert("d",1)] starts.
    The call evicts ["a"], writes its count [1] into the shared cell and
    then reads it back: it returns [("d", 2, 1)] and stores that entry,
    not [("d", 1, 0)]. *)
Lemma C4_counterexample :
  ∃ s outs s' r,
    Inserts sip13.Sum64Str empty1 [("a", 1%Z)] = Some (s, outs) ∧
    m (k s) !! "d" = None ∧ Z.of_nat (length (elts (k s))) = n s ∧
    slot sip13.Sum64Str s "d" = slot sip13.Sum64Str s "a" ∧
    alphas s !! slot sip13.Sum64Str s "d" = Some 0%Z ∧
    Insert sip13.Sum64Str s "d" 1 = Some (s', r) ∧
    r = {| EKey := "d"; ECount := 2; EError := 1 |} ∧
    elts (k s') = [ {| Key := "d"; Count := 2; Error := 1 |} ] ∧
    r ≠ {| EKey := "d"; ECount := 0 + 1; EError := 0 |}.
Proof.
  eexists _, _, _, _.
  split; [vm_compute; reflexivity|].
  split; [vm_compute; reflexivity|].
  split; [vm_compute; reflexivity|].
  split; [vm_compute; reflexivity|].
  split; [vm_compute; reflexivity|].
  split; [vm_compute; reflexivity|].
  split; [reflexivity|].
  split; [vm_compute; reflexivity|].
  intros H. discriminate H.
Qed.

Lemma C5_nonpositive_capacity_witness :
  ((0 < 0)%Z → New 0 = None) ∧
  (0%Z = 0%Z →
   ∃ s0, New 0 = Some s0 ∧ elts (k s0) = [] ∧ alphas s0 = [] ∧
         ∀ x c, Insert sip13.Sum64Str s0 x c = None ∧
                Estimate sip13.Sum64Str s0 x = None).
Proof. apply (C5_nonpositive_capacity sip13.Sum64Str 0). lia. Defined.

(** C5 fails as stated: [New(0)] does not fail, it returns an estimator. *)
Lemma C5_counterexample :
  New 0 = Some {| n := 0; k := {| m := ∅; elts := [] |}; alphas := [] |}.
Proof. vm_compute; reflexivity. Qed.

Lemma C6_capacity_bound_witness :
  ∃ s outs,
    Inserts sip13.Sum64Str
      {| n := 2; k := {| m := ∅; elts := [] |}; alphas := replicate 12 0%Z |}
      [("a", 5%Z); ("b", 3%Z); ("c", 10%Z)] = Some (s, outs) ∧
    (Z.of_nat (length (elts (k s))) ≤ 2)%Z ∧
    (Z.of_nat (size (m (k s))) ≤ 2)%Z.
Proof.
  apply (C6_capacity_bound sip13.Sum64Str 2).
  - unfold max_int. lia.
  - vm_compute; reflexivity.
Defined.

Lemma C7_counts_monotone_witness :
  ∃ s outs,
    Inserts sip13.Sum64Str empty1
      [("a", 1%Z); ("b", 1%Z); ("a", 2%Z); ("b", 5%Z)] = Some (s, outs) ∧
    ∀ i j x ci cj ri rj, i ≤ j →
      [("a", 1%Z); ("b", 1%Z); ("a", 2%Z); ("b", 5%Z)] !! i = Some (x, ci) →
      [("a", 1%Z); ("b", 1%Z); ("a", 2%Z); ("b", 5%Z)] !! j = Some (x, cj) →
      outs !! i = Some ri → outs !! j = Some rj →
      (ECount ri ≤ ECount rj)%Z.
Proof.
  apply (C7_counts_monotone sip13.Sum64Str 1).
  - unfold max_int. lia.
  - vm_compute; reflexivity.
  - repeat constructor.
  - vm_compute. intros H. discriminate H.
Defined.

(** C7 fails as stated: on [New(1)], [Insert("a", 2^63-1)] returns the
    count [2^63-1] and the next call [Insert("a", 1)] returns [-2^63]. *)
Lemma C7_counterexample :
  ∃ s r1 r2,
    Inserts sip13.Sum64Str empty1 [("a", max_int); ("a", 1%Z)] =
      Some (s, [r1; r2]) ∧
    ECount r1 = max_int ∧ ECount r2 = min_int ∧ (ECount r2 < ECount r1)%Z.
Proof.
  eexists _, _, _.
  split; [vm_compute; reflexivity|].
  split; [vm_compute; reflexivity|].
  split; [vm_compute; reflexivity|vm_compute; reflexivity].
Qed.

Lemma C9_hash_index_witness :
  (0 ≤ reduce 12345 (1 * 6) < 1 * 6)%Z ∧
  ((1 * 6 ≤ 2 ^ 32)%Z →
   reduce 12345 (1 * 6) = (((12345 mod 2 ^ 32) * (1 * 6)) / 2 ^ 32)%Z) ∧
  ∃ s0, New 1 = Some s0 ∧ Z.of_nat (length (alphas s0)) = (1 * 6)%Z ∧
    ∀ Sum64Str ops, ∃ s outs,
      Inserts Sum64Str s0 ops = Some (s, outs) ∧
      length (alphas s) = length (alphas s0) ∧
      ∀ x, slot Sum64Str s x < length (alphas s) ∧
           is_Some (Estimate Sum64Str s x).
Proof.
  apply (C9_hash_index 1 12345).
  - lia.
  - unfold max_int. lia.
Defined.

(** C9 fails as stated: for the capacity [n = 2^30] the table has
    [6 * 2^30] cells, more than [2^32]; on the hash [2^32 - 1] the
    product leaves 64 bits and [reduce] returns [2147483646], while
    [floor(low32(h) * 6n / 2^32)] is [6442450942]. *)
Lemma C9_counterexample :
  (1 ≤ 2 ^ 30)%Z ∧
  (∃ s0, New (2 ^ 30) = Some s0 ∧
         Z.of_nat (length (alphas s0)) = (2 ^ 30 * 6)%Z) ∧
  reduce (2 ^ 32 - 1) (2 ^ 30 * 6) = 2147483646%Z ∧
  ((((2 ^ 32 - 1) mod 2 ^ 32) * (2 ^ 30 * 6)) / 2 ^ 32 = 6442450942)%Z.
Proof.
  split; [lia|]. split.
  - eexists. split; [apply New_Some; [lia|vm_compute; discriminate]|].
    cbn [alphas]. rewrite length_replicate.
    change (int_wrap (2 ^ 30 * 6)) with (2 ^ 30 * 6)%Z. lia.
  - split; vm_compute; reflexivity.
Qed.

Lemma C10_error_le_count_witness :
  (∀ e, e ∈ elts (k tracking_a) → (0 ≤ Error e ≤ Count e)%Z) ∧
  (∀ r, r ∈ [ {| EKey := "a"; ECount := 5; EError := 0 |} ] →
        (0 ≤ EError r ≤ ECount r)%Z) ∧
  (∀ x, ∃ r, Estimate sip13.Sum64Str tracking_a x = Some r ∧
             (EError r ≤ ECount r)%Z).
Proof.
  apply (C10_error_le_count sip13.Sum64Str 1 [("a", 5%Z)] empty1).
  - unfold max_int. lia.
  - vm_compute; reflexivity.
  - repeat constructor.
  - vm_compute. intros H. discriminate H.
  - vm_compute; reflexivity.
Defined.

(** C10 fails as stated: on [New(1)], after [Insert("a", 2^63-1)] and
    [Insert("a", 1)] the monitored entry of ["a"] has count [-2^63] and
    error [0], and that is the element the second call returned. *)
Lemma C10_counterexample :
  ∃ s r1 r2,
    Inserts sip13.Sum64Str empty1 [("a", max_int); ("a", 1%Z)] =
      Some (s, [r1; r2]) ∧
    elts (k s) = [ {| Key := "a"; Count := min_int; Error := 0 |} ] ∧
    r2 = {| EKey := "a"; ECount := min_int; EError := 0 |} ∧
    (ECount r2 < EError r2)%Z.
Proof.
  eexists _, _, _.
  split; [vm_compute; reflexivity|].
  split; [vm_compute; reflexivity|].
  split; [vm_compute; reflexivity|vm_compute; reflexivity].
Qed.

(** Known answers of the hash, and the cells of the keys used above. *)
Lemma sip13_known_answers :
  sip13.Sum64Str 0 0 "a" = 0x407448d2b89b1813%Z ∧
  sip13.Sum64Str 0 0 "abc" = 0xc03bc3a0042630f2%Z ∧
  sip13.Sum64Str 0 0 "12345678" = 0x3489982430560a87%Z ∧
  sip13.Sum64Str 0 0 "123456789abcdefg" = 0x2b1aa8d688793027%Z ∧
  slot sip13.Sum64Str empty1 <$> ["a"; "b"; "d"] = [4; 0; 4].
Proof. repeat split; vm_compute; reflexivity. Qed.

Lemma X2_index_consistent_witness :
  ∃ s outs,
    Inserts sip13.Sum64Str empty1 [("a", 5%Z); ("b", 7%Z)] = Some (s, outs) ∧
    length outs = length [("a", 5%Z); ("b", 7%Z)] ∧
    ∀ key i, m (k s) !! key = Some i ↔
             ∃ e, elts (k s) !! i = Some e ∧ Key e = key.
Proof.
  apply (X2_index_consistent sip13.Sum64Str 1).
  - unfold max_int. lia.
  - vm_compute; reflexivity.
Defined.

(** Scenario A on the code: on [New(2)], [Insert("a",5)] returns
    [(a,5,0)], [Insert("b",3)] returns [(b,3,0)], [Insert("c",10)] evicts
    ["b"] and returns [(c,10,0)]; [Keys] then lists ["c"] before ["a"]. *)
Lemma scenario_A :
  ∃ s0 s,
    New 2 = Some s0 ∧
    Inserts sip13.Sum64Str s0 [("a", 5%Z); ("b", 3%Z); ("c", 10%Z)] =
      Some (s, [ {| EKey := "a"; ECount := 5; EError := 0 |};
                 {| EKey := "b"; ECount := 3; EError := 0 |};
                 {| EKey := "c"; ECount := 10; EError := 0 |} ]) ∧
    (Keys s).2 = [ {| EKey := "c"; ECount := 10; EError := 0 |};
                   {| EKey := "a"; ECount := 5; EError := 0 |} ] ∧
    Estimate sip13.Sum64Str s "b" =
      Some {| EKey := "b"; ECount := 3; EError := 3 |}.
Proof.
  eexists _, _.
  split; [vm_compute; reflexivity|].
  split; [vm_compute; reflexivity|].
  split; vm_compute; reflexivity.
Qed.

(** ** The further properties on concrete runs *)

Ltac run_hyp :=
  first
    [ reflexivity
    | vm_compute; reflexivity
    | unfold max_int; lia
    | repeat constructor; done
    | vm_compute; intros H; discriminate H
    | apply list_elem_of_here
    | intros; reflexivity ].

Lemma scenario_A_run :
  New 2 = Some empty2 ∧
  Inserts sip13.Sum64Str empty2 [("a", 5%Z); ("b", 3%Z); ("c", 10%Z)] =
    Some (tracking_ac,
          [ {| EKey := "a"; ECount := 5; EError := 0 |};
            {| EKey := "b"; ECount := 3; EError := 0 |};
            {| EKey := "c"; ECount := 10; EError := 0 |} ]).
Proof. split; vm_compute; reflexivity. Qed.


Lemma X3_Estimate_never_under_witness :
  ∃ r, Estimate sip13.Sum64Str tracking_a "a" = Some r ∧ EKey r = "a" ∧
       (occurrences "a" [("a", 5%Z)] ≤ ECount r)%Z.
Proof.
  apply (X3_Estimate_never_under sip13.Sum64Str 1 [("a", 5%Z)] empty1 tracking_a
           [ {| EKey := "a"; ECount := 5; EError := 0 |} ]); run_hyp.
Defined.

Lemma X4_monitored_error_bound_witness :
  (Count {| Key := "a"; Count := 5; Error := 0 |}
     - Error {| Key := "a"; Count := 5; Error := 0 |}
   ≤ occurrences (Key {| Key := "a"; Count := 5; Error := 0 |}) [("a", 5%Z)]
   ≤ Count {| Key := "a"; Count := 5; Error := 0 |})%Z.
Proof.
  apply (X4_monitored_error_bound sip13.Sum64Str 1 [("a", 5%Z)] empty1 tracking_a
           [ {| EKey := "a"; ECount := 5; EError := 0 |} ]); run_hyp.
Defined.

Lemma X5_returned_error_bound_witness :
  (ECount {| EKey := "a"; ECount := 7; EError := 0 |}
     - EError {| EKey := "a"; ECount := 7; EError := 0 |}
   ≤ occurrences "a" (take 2 [("a", 5%Z); ("a", 2%Z)])
   ≤ ECount {| EKey := "a"; ECount := 7; EError := 0 |})%Z.
Proof.
  apply (X5_returned_error_bound sip13.Sum64Str 1 [("a", 5%Z); ("a", 2%Z)]
           empty1 counting_a
           [ {| EKey := "a"; ECount := 5; EError := 0 |};
             {| EKey := "a"; ECount := 7; EError := 0 |} ] 1 "a" 2%Z);
    run_hyp.
Defined.

Lemma X6_Estimate_after_Insert_witness :
  ∃ s' r r',
    Insert sip13.Sum64Str tracking_a "b" 3 = Some (s', r) ∧
    Estimate sip13.Sum64Str s' "b" = Some r' ∧
    EKey r = "b" ∧ EKey r' = "b" ∧ ECount r' = ECount r ∧
    ((is_Some (m (k s') !! "b") ∧ r' = r) ∨
     (m (k s') !! "b" = None ∧ k s' = k tracking_a ∧ EError r' = ECount r)).
Proof.
  apply (X6_Estimate_after_Insert sip13.Sum64Str 1 [("a", 5%Z)] empty1 tracking_a
           [ {| EKey := "a"; ECount := 5; EError := 0 |} ] "b" 3%Z); run_hyp.
Defined.

Lemma X7_Estimate_monotone_witness :
  (ECount {| EKey := "a"; ECount := 5; EError := 0 |}
   ≤ ECount {| EKey := "a"; ECount := 7; EError := 0 |})%Z.
Proof.
  apply (X7_Estimate_monotone sip13.Sum64Str 1 [("a", 5%Z)] [("a", 2%Z)]
           empty1 tracking_a [ {| EKey := "a"; ECount := 5; EError := 0 |} ]
           counting_a [ {| EKey := "a"; ECount := 7; EError := 0 |} ] "a");
    run_hyp.
Defined.

Lemma X8_Keys_monitored_witness :
  (Z.of_nat (length (Keys tracking_ac).2) ≤ 2)%Z ∧
  NoDup (EKey <$> (Keys tracking_ac).2) ∧
  (∀ x, is_Some (m (k tracking_ac) !! x) ↔ x ∈ EKey <$> (Keys tracking_ac).2) ∧
  (∀ r, r ∈ (Keys tracking_ac).2 →
        Estimate sip13.Sum64Str tracking_ac (EKey r) = Some r).
Proof.
  apply (X8_Keys_monitored sip13.Sum64Str 2
           [("a", 5%Z); ("b", 3%Z); ("c", 10%Z)] empty2 tracking_ac
           [ {| EKey := "a"; ECount := 5; EError := 0 |};
             {| EKey := "b"; ECount := 3; EError := 0 |};
             {| EKey := "c"; ECount := 10; EError := 0 |} ]).
  - unfold max_int. lia.
  - vm_compute; reflexivity.
  - vm_compute; reflexivity.
Defined.

Lemma X9_Keys_order_unique_witness :
  [ {| EKey := "c"; ECount := 10; EError := 0 |};
    {| EKey := "a"; ECount := 5; EError := 0 |} ] = (Keys tracking_ac).2.
Proof.
  apply (X9_Keys_order_unique sip13.Sum64Str 2
           [("a", 5%Z); ("b", 3%Z); ("c", 10%Z)] empty2 tracking_ac
           [ {| EKey := "a"; ECount := 5; EError := 0 |};
             {| EKey := "b"; ECount := 3; EError := 0 |};
             {| EKey := "c"; ECount := 10; EError := 0 |} ]).
  - unfold max_int. lia.
  - vm_compute; reflexivity.
  - vm_compute; reflexivity.
  - cbn [tracking_ac k elts fmap list_fmap export Key Count Error].
    apply perm_swap.
  - repeat constructor.
Defined.

Lemma X10_exact_when_room_witness :
  Estimate sip13.Sum64Str counting_a "a" =
    Some {| EKey := "a";
            ECount := occurrences "a" [("a", 5%Z); ("a", 2%Z)];
            EError := 0 |}.
Proof.
  apply (X10_exact_when_room sip13.Sum64Str 1 [("a", 5%Z); ("a", 2%Z)] empty1
           counting_a
           [ {| EKey := "a"; ECount := 5; EError := 0 |};
             {| EKey := "a"; ECount := 7; EError := 0 |} ]); run_hyp.
Defined.

Lemma X11_unmonitored_bound_witness :
  (∀ e, e ∈ elts (k tracking_ac) →
     (occurrences "b" [("a", 5%Z); ("b", 3%Z); ("c", 10%Z)] ≤ Count e)%Z) ∧
  ((Z.of_nat (length (elts (k tracking_ac))) < 2)%Z →
   occurrences "b" [("a", 5%Z); ("b", 3%Z); ("c", 10%Z)] = 0%Z).
Proof.
  apply (X11_unmonitored_bound sip13.Sum64Str 2
           [("a", 5%Z); ("b", 3%Z); ("c", 10%Z)] empty2 tracking_ac
           [ {| EKey := "a"; ECount := 5; EError := 0 |};
             {| EKey := "b"; ECount := 3; EError := 0 |};
             {| EKey := "c"; ECount := 10; EError := 0 |} ] "b").
  - unfold max_int. lia.
  - vm_compute; reflexivity.
  - repeat constructor.
  - vm_compute. intros H. discriminate H.
  - vm_compute; reflexivity.
  - vm_compute; reflexivity.
Defined.

Lemma X12_Pop_Push_witness :
  Pop (Push (k empty1) {| Key := "a"; Count := 5; Error := 0 |}) =
    Some (k empty1, {| Key := "a"; Count := 5; Error := 0 |}).
Proof. apply (X12_Pop_Push (k empty1)). reflexivity. Defined.

Lemma X14_Encode_Decode_witness :
  ∃ toks, Encode map_to_list tracking_a 20 = Some toks ∧
    length toks = encoded_size tracking_a ∧
    DecodeMsgp (toks ++ [TOther]) = Some (fields tracking_a, [TOther]) ∧
    Decode toks = Some (fields tracking_a) ∧
    ∀ s', fields s' = fields tracking_a → s' = tracking_a.
Proof.
  apply (X14_Encode_Decode map_to_list tracking_a 20 [TOther]).
  - intros mp. reflexivity.
  - vm_compute; reflexivity.
  - vm_compute; reflexivity.
  - vm_compute; reflexivity.
  - vm_compute. lia.
Defined.

Lemma X15_Encode_fails_iff_witness :
  (Encode map_to_list tracking_a 3 = None ↔ 3 < encoded_size tracking_a) ∧
  (∀ toks, Encode map_to_list tracking_a 3 = Some toks →
     length toks = encoded_size tracking_a).
Proof.
  apply (X15_Encode_fails_iff map_to_list tracking_a 3). intros mp. reflexivity.
Defined.

Lemma X16_Decode_truncated_witness :
  Decode [TInt 1; TArrayHeader 6; TInt 0; TInt 0; TInt 0; TInt 0; TInt 0;
          TInt 0; TMapHeader 0] = None.
Proof.
  apply (X16_Decode_truncated map_to_list empty1 20
           [TInt 1; TArrayHeader 6; TInt 0; TInt 0; TInt 0; TInt 0; TInt 0;
            TInt 0; TMapHeader 0; TArrayHeader 0]
           [TInt 1; TArrayHeader 6; TInt 0; TInt 0; TInt 0; TInt 0; TInt 0;
            TInt 0; TMapHeader 0]
           [TArrayHeader 0]).
  - intros mp. reflexivity.
  - vm_compute; reflexivity.
  - vm_compute; reflexivity.
  - vm_compute; reflexivity.
  - vm_compute; reflexivity.
  - reflexivity.
  - intros H. discriminate H.
Defined.
